(** * DigitalOcean cloud provider: instance directory, capability surface
      and volume adapter

    A shallow embedding of package [digitalocean]
    (the provider file and [digitalocean_volumes.go]).

    Every method of the provider talks to collaborators that live outside
    the package: the godo SDK, the droplet metadata endpoint and the local
    device directory.  A method is therefore embedded as a program [Prog A]
    whose nodes are the calls it makes, in the order it makes them, and
    whose leaves are the values it returns (or a runtime panic).  A [World]
    answers the calls; [run] gives the returned value together with the
    trace of calls made.  Logging through glog is not modelled. *)

From Stdlib Require Import ZArith String Ascii List Bool Lia DecimalString.
From Stdlib Require Import DecimalPos DecimalZ.
From stdpp Require Import base option list gmap strings.

Open Scope string_scope.
Open Scope list_scope.
Open Scope Z_scope.

(** ** Go strings (byte sequences) *)

(** [strings.HasPrefix] *)
Fixpoint HasPrefix (s prefix : string) {struct prefix} : bool :=
  match prefix, s with
  | EmptyString, _ => true
  | String a p, String b s' => Ascii.eqb a b && HasPrefix s' p
  | String _ _, EmptyString => false
  end.

(** [strings.Contains s substr]: [substr] occurs in [s] at some offset. *)
Fixpoint Contains (s substr : string) : bool :=
  HasPrefix s substr ||
  match s with
  | EmptyString => false
  | String _ s' => Contains s' substr
  end.

(** The slice expression [s[lo:hi]]; [None] is the runtime panic for
    bounds out of range. *)
Definition slice (s : string) (lo hi : nat) : option string :=
  if (lo <=? hi)%nat && (hi <=? String.length s)%nat
  then Some (String.substring lo (hi - lo) s)
  else None.

Definition lower_byte (c : ascii) : ascii :=
  let n := N_of_ascii c in
  if (65 <=? n)%N && (n <=? 90)%N then ascii_of_N (n + 32) else c.

(** Lower case of ASCII text: bytes ['A'..'Z'] are moved to ['a'..'z']
    and every other byte is kept. *)
Fixpoint lower_ascii (s : string) : string :=
  match s with
  | EmptyString => EmptyString
  | String c s' => String (lower_byte c) (lower_ascii s')
  end.

(** No byte of [s] is above 0x7f. *)
Fixpoint isASCII (s : string) : bool :=
  match s with
  | EmptyString => true
  | String c s' => (N_of_ascii c <? 128)%N && isASCII s'
  end.

(** The Unicode side of Go's [strings]: [Map_ToLower s] stands for
    [strings.Map(unicode.ToLower, s)] on a text that is not ASCII.  The
    tables of package [unicode] are not part of this development; every
    result below is stated for whatever this function is. *)
Class Unicode : Type := { Map_ToLower : string -> string }.

(** [strings.ToLower]: ASCII text is folded byte by byte, any other text
    goes through the Unicode tables. *)
Definition ToLower {U : Unicode} (s : string) : string :=
  if isASCII s then lower_ascii s else Map_ToLower s.

(** [strings.Join] *)
Fixpoint strings_Join (elems : list string) (sep : string) : string :=
  match elems with
  | [] => ""
  | [x] => x
  | x :: rest => x +:+ sep +:+ strings_Join rest sep
  end.

(** ** Errors *)

Inductive error : Type :=
  (* package-level error values of the provider *)
  | ErrNotFound
  | ErrMultipleResults
  | ErrNoAddressFound
  | ErrAttrNotFound
  (* cloudprovider.InstanceNotFound *)
  | InstanceNotFound
  (* volume.NewDeletedVolumeInUseError(msg) *)
  | DeletedVolumeInUseError (msg : string)
  (* errors.New(msg), fmt.Errorf(...) *)
  | ErrorString (msg : string)
  (* strconv.NumError{Func, Num, Err}: [range] tells ErrRange from
     ErrSyntax; Func, which names the parsing function and differs between
     Go releases, is left out *)
  | NumError (num : string) (range : bool)
  (* whatever a collaborator (godo, net/http, os) reports *)
  | ExternalError (msg : string).

(** A callee that hands back either a value or a non-nil error. *)
Inductive result (A : Type) : Type :=
  | Ok (a : A)
  | Err (e : error).
Arguments Ok {A} a.
Arguments Err {A} e.

(** ** strconv *)

Definition digit_value (c : ascii) : option Z :=
  let n := Z.of_N (N_of_ascii c) in
  if (48 <=? n) && (n <=? 57) then Some (n - 48) else None.

Definition maxUint64 : Z := 2 ^ 64 - 1.
Definition maxInt : Z := 2 ^ 63 - 1.
Definition minInt : Z := - 2 ^ 63.

(** What the digit loop of [strconv.ParseUint] ends with. *)
Inductive digits_result : Type :=
  | DigitsOk (n : Z)
  | DigitsSyntax
  | DigitsRange.

(** The loop of [strconv.ParseUint] in base 10 at 64 bits: a byte that is
    not a digit is a syntax error; a value that leaves [uint64] is a range
    error, reported at the digit where it happens. *)
Fixpoint parse_digits (s : string) (n : Z) : digits_result :=
  match s with
  | EmptyString => DigitsOk n
  | String c s' =>
      match digit_value c with
      | None => DigitsSyntax
      | Some d =>
          if maxUint64 / 10 + 1 <=? n then DigitsRange
          else
            let n1 := n * 10 + d in
            if maxUint64 <? n1 then DigitsRange
            else parse_digits s' n1
      end
  end.

(** [strconv.Atoi] for a 64-bit [int], through [ParseInt(s, 10, 0)]: an
    optional sign, then one or more decimal digits read as by
    [ParseUint]; a value outside the range of [int] is a range error and
    comes back as the nearest bound. *)
Definition Atoi (s : string) : Z * option error :=
  let syntax := (0, Some (NumError s false)) in
  match s with
  | EmptyString => syntax
  | String c s' =>
      let neg := Ascii.eqb c "-" in
      let body := if neg || Ascii.eqb c "+" then s' else s in
      match body with
      | EmptyString => syntax
      | String _ _ =>
          match parse_digits body 0 with
          | DigitsSyntax => syntax
          | DigitsRange =>
              if neg then (minInt, Some (NumError s true))
              else (maxInt, Some (NumError s true))
          | DigitsOk un =>
              if negb neg && (2 ^ 63 <=? un)
              then (maxInt, Some (NumError s true))
              else if neg && (2 ^ 63 <? un)
              then (minInt, Some (NumError s true))
              else (if neg then - un else un, None)
          end
      end
  end.

(** [strconv.Itoa] *)
Definition Itoa (i : Z) : string := NilZero.string_of_int (Z.to_int i).

(** ** path *)

Fixpoint split_slash (s : string) : list string :=
  match s with
  | EmptyString => [EmptyString]
  | String c s' =>
      if Ascii.eqb c "/" then EmptyString :: split_slash s'
      else match split_slash s' with
           | x :: xs => String c x :: xs
           | [] => [String c EmptyString]
           end
  end.

(** [path.Clean]: runs of slashes collapse, [.] elements vanish, an inner
    [..] removes the element before it, [..] at the root vanishes; the
    empty result is [.]. *)
Definition Clean (p : string) : string :=
  if String.eqb p "" then "."
  else
    let rooted := HasPrefix p "/" in
    let elems :=
      List.filter (fun c => negb (String.eqb c "") && negb (String.eqb c "."))
                  (split_slash p) in
    let stack :=
      fold_left
        (fun st c =>
           if String.eqb c ".." then
             match st with
             | top :: below => if String.eqb top ".." then c :: st else below
             | [] => if rooted then [] else [c]
             end
           else c :: st)
        elems [] in
    let body := strings_Join (rev stack) "/" in
    if rooted then "/" +:+ body
    else if String.eqb body "" then "." else body.

(** [path.Join]: empty elements are ignored, the rest is joined with
    slashes and cleaned; no non-empty element gives the empty string. *)
Definition path_Join (elem : list string) : string :=
  match List.filter (fun e => negb (String.eqb e "")) elem with
  | [] => ""
  | es => Clean (strings_Join es "/")
  end.

(** ** Records of the SDK and of the orchestrator *)

Module Size.
Record t := { Slug : string }.
End Size.

Module Droplet.
(** [godo.Droplet].  [PrivateIPv4] and [PublicIPv4] hold what the
    accessor methods of the same name return for this droplet: the
    address and the accessor's error. *)
Record t := {
    ID : Z;
    Name : string;
    Size : option Size.t;
    PrivateIPv4 : string * option error;
    PublicIPv4 : string * option error
  }.
End Droplet.

Module Volume.
(** [godo.Volume] *)
Record t := {
    ID : string;
    Name : string;
    DropletIDs : list Z
  }.
End Volume.

Module ListOptions.
Record t := { Page : Z; PerPage : Z }.
End ListOptions.

Module Response.
(** [http.Response]; [Body] is what [ioutil.ReadAll(resp.Body)] yields:
    the bytes read and the read error. *)
Record t := { Body : string * option error }.
End Response.

Module api.
Inductive NodeAddressType :=
    | NodeHostName | NodeExternalIP | NodeInternalIP | NodeLegacyHostIP.
Record NodeAddress := { Type' : NodeAddressType; Address : string }.
End api.

Module Zone.
(** [cloudprovider.Zone] *)
Record t := { FailureDomain : string; Region : string }.
End Zone.

(** ** The provider's own records *)

Module Config.
Record Global_t := { ApiKey : string; Region : string }.
Record t := { Global : Global_t }.
End Config.

Module TokenSource.
Record t := { AccessToken : string }.
End TokenSource.

Module doInstance.
Record t := {
    dropletID : Z;   (* Local droplet ID *)
    region : string  (* region the instance resides in *)
  }.
End doInstance.

Module DigitalOcean.
(** [provider] is the godo client, which is the token source it was
    built from; [selfDOInstance] is a pointer, [None] when nil. *)
Record t := {
    provider : TokenSource.t;
    region : string;
    selfDOInstance : option doInstance.t
  }.
End DigitalOcean.

Definition ProviderName : string := "digitalocean".

(** ** Programs over the collaborators *)

(** One constructor per call the package makes:
    - [AccountGet]: [provider.Account.Get()]
    - [DropletsList]: [provider.Droplets.List(opt)]
    - [StorageGetVolume], [StorageDeleteVolume]: [provider.Storage]
    - [StorageActionsAttach]: [provider.StorageActions.Attach]
    - [HttpGet]: [http.Get(url)]
    - [ReadDir]: [ioutil.ReadDir(dirname)], entries by name
    and [Panic] for a runtime panic. *)
Inductive Prog (A : Type) : Type :=
  | Ret (a : A)
  | Panic (msg : string)
  | AccountGet (k : option error -> Prog A)
  | DropletsList (opt : ListOptions.t) (k : result (list Droplet.t) -> Prog A)
  | StorageGetVolume (volumeID : string) (k : result Volume.t -> Prog A)
  | StorageDeleteVolume (volumeID : string) (k : option error -> Prog A)
  | StorageActionsAttach (volumeID : string) (dropletID : Z)
      (k : option error -> Prog A)
  | HttpGet (url : string) (k : result Response.t -> Prog A)
  | ReadDir (dirname : string) (k : result (list string) -> Prog A).
Arguments Ret {A} a.
Arguments Panic {A} msg.
Arguments AccountGet {A} k.
Arguments DropletsList {A} opt k.
Arguments StorageGetVolume {A} volumeID k.
Arguments StorageDeleteVolume {A} volumeID k.
Arguments StorageActionsAttach {A} volumeID dropletID k.
Arguments HttpGet {A} url k.
Arguments ReadDir {A} dirname k.

Fixpoint bind {A B : Type} (p : Prog A) (f : A -> Prog B) : Prog B :=
  match p with
  | Ret a => f a
  | Panic msg => Panic msg
  | AccountGet k => AccountGet (fun r => bind (k r) f)
  | DropletsList opt k => DropletsList opt (fun r => bind (k r) f)
  | StorageGetVolume v k => StorageGetVolume v (fun r => bind (k r) f)
  | StorageDeleteVolume v k => StorageDeleteVolume v (fun r => bind (k r) f)
  | StorageActionsAttach v d k =>
      StorageActionsAttach v d (fun r => bind (k r) f)
  | HttpGet url k => HttpGet url (fun r => bind (k r) f)
  | ReadDir d k => ReadDir d (fun r => bind (k r) f)
  end.

Notation "x <- p ;; q" := (bind p (fun x => q))
  (at level 100, p at next level, right associativity,
   format "'[v' x  <-  p  ;; '/' q ']'").

(** What a call and its answer look like in a trace. *)
Inductive event : Type :=
  | EvAccountGet (r : option error)
  | EvDropletsList (opt : ListOptions.t) (r : result (list Droplet.t))
  | EvStorageGetVolume (volumeID : string) (r : result Volume.t)
  | EvStorageDeleteVolume (volumeID : string) (r : option error)
  | EvStorageActionsAttach (volumeID : string) (dropletID : Z)
      (r : option error)
  | EvHttpGet (url : string) (r : result Response.t)
  | EvReadDir (dirname : string) (r : result (list string)).

(** The collaborators: each call is answered from a state [St] that the
    answer may change. *)
Record World (St : Type) : Type := {
  account_get : St -> option error * St;
  droplets_list : ListOptions.t -> St -> result (list Droplet.t) * St;
  storage_get_volume : string -> St -> result Volume.t * St;
  storage_delete_volume : string -> St -> option error * St;
  storage_actions_attach : string -> Z -> St -> option error * St;
  http_get : string -> St -> result Response.t * St;
  read_dir : string -> St -> result (list string) * St
}.
Arguments account_get {St} w.
Arguments droplets_list {St} w.
Arguments storage_get_volume {St} w.
Arguments storage_delete_volume {St} w.
Arguments storage_actions_attach {St} w.
Arguments http_get {St} w.
Arguments read_dir {St} w.

Inductive outcome (A : Type) : Type :=
  | Done (a : A)
  | Panicked (msg : string).
Arguments Done {A} a.
Arguments Panicked {A} msg.

(** The run of a program: what it returns, the state of the collaborators
    afterwards, and the calls made with their answers, oldest first. *)
Record Run (St A : Type) : Type := {
  returned : outcome A;
  final : St;
  calls : list event
}.
Arguments returned {St A} r.
Arguments final {St A} r.
Arguments calls {St A} r.

Definition after {St A} (ev : event) (r : Run St A) : Run St A :=
  {| returned := returned r; final := final r; calls := ev :: calls r |}.

Fixpoint run {St A : Type} (w : World St) (p : Prog A) (s : St) : Run St A :=
  match p with
  | Ret a => {| returned := Done a; final := s; calls := [] |}
  | Panic msg => {| returned := Panicked msg; final := s; calls := [] |}
  | AccountGet k =>
      let '(r, s') := account_get w s in
      after (EvAccountGet r) (run w (k r) s')
  | DropletsList opt k =>
      let '(r, s') := droplets_list w opt s in
      after (EvDropletsList opt r) (run w (k r) s')
  | StorageGetVolume v k =>
      let '(r, s') := storage_get_volume w v s in
      after (EvStorageGetVolume v r) (run w (k r) s')
  | StorageDeleteVolume v k =>
      let '(r, s') := storage_delete_volume w v s in
      after (EvStorageDeleteVolume v r) (run w (k r) s')
  | StorageActionsAttach v d k =>
      let '(r, s') := storage_actions_attach w v d s in
      after (EvStorageActionsAttach v d r) (run w (k r) s')
  | HttpGet url k =>
      let '(r, s') := http_get w url s in
      after (EvHttpGet url r) (run w (k r) s')
  | ReadDir d k =>
      let '(r, s') := read_dir w d s in
      after (EvReadDir d r) (run w (k r) s')
  end.

(** ** The provider *)

Definition is_nil (err : option error) : bool :=
  match err with None => true | Some _ => false end.

Definition metadata_region_url : string :=
  "http://169.254.169.254/metadata/v1/region".
Definition metadata_id_url : string :=
  "http://169.254.169.254/metadata/v1/id".

(** [buildSelfDOInstance]: the region and the droplet id are read from the
    metadata service; the errors of the two body reads are dropped, as in
    the source. *)
Definition buildSelfDOInstance (do : DigitalOcean.t)
  : Prog (result doInstance.t) :=
  match DigitalOcean.selfDOInstance do with
  | Some _ => Panic "do not call buildSelfDOInstance directly"
  | None =>
      HttpGet metadata_region_url (fun r =>
        match r with
        | Err err => Ret (Err err)
        | Ok resp =>
            let '(dropletRegion, _) := Response.Body resp in
            HttpGet metadata_id_url (fun r =>
              match r with
              | Err err => Ret (Err err)
              | Ok resp =>
                  let '(dropletID, _) := Response.Body resp in
                  let '(intDropletID, err) := Atoi dropletID in
                  match err with
                  | Some err => Ret (Err err)
                  | None =>
                      Ret (Ok {| doInstance.dropletID := intDropletID;
                                 doInstance.region := dropletRegion |})
                  end
              end)
        end)
  end.

(** [newDigitalOcean]: the value returned is the [do] built before the
    self instance was resolved. *)
Definition newDigitalOcean (cfg : Config.t) : Prog (result DigitalOcean.t) :=
  let tokenSource :=
    {| TokenSource.AccessToken := Config.ApiKey (Config.Global cfg) |} in
  let provider := tokenSource in
  AccountGet (fun err =>
    match err with
    | Some err => Ret (Err err)
    | None =>
        let do := {| DigitalOcean.provider := provider;
                     DigitalOcean.region := Config.Region (Config.Global cfg);
                     DigitalOcean.selfDOInstance := None |} in
        r <- buildSelfDOInstance do ;;
        match r with
        | Err err => Ret (Err err)
        | Ok selfDOInstance => Ret (Ok do)
        end
    end).

(** Capability accessors: the interface value handed out ([None] is nil)
    and the flag. *)
Definition Clusters (do : DigitalOcean.t) : option DigitalOcean.t * bool :=
  (None, false).
Definition Instances (do : DigitalOcean.t) : option DigitalOcean.t * bool :=
  (Some do, true).
Definition LoadBalancer (do : DigitalOcean.t) : option DigitalOcean.t * bool :=
  (None, false).
Definition Zones (do : DigitalOcean.t) : option DigitalOcean.t * bool :=
  (Some do, false).
Definition Routes (do : DigitalOcean.t) : option DigitalOcean.t * bool :=
  (None, false).

Definition listOptions : ListOptions.t :=
  {| ListOptions.Page := 1; ListOptions.PerPage := 200 |}.

(** The loop of [findDroplet] over the listing. *)
Fixpoint findDroplet_scan {U : Unicode} (name : string) (droplets : list
    Droplet.t)
  : result Droplet.t :=
  match droplets with
  | [] => Err ErrNotFound
  | d :: rest =>
      if String.eqb (ToLower name) (ToLower (Droplet.Name d)) then Ok d
      else
        let '(ipv4, err) := Droplet.PrivateIPv4 d in
        if is_nil err && String.eqb name ipv4 then Ok d
        else
          let '(ipv4, err) := Droplet.PublicIPv4 d in
          if is_nil err && String.eqb name ipv4 then Ok d
          else findDroplet_scan name rest
  end.

Definition findDroplet {U : Unicode} (do : DigitalOcean.t) (name : string)
  : Prog (result Droplet.t) :=
  DropletsList listOptions (fun r =>
    match r with
    | Err err => Ret (Err err)
    | Ok droplets => Ret (findDroplet_scan name droplets)
    end).

(** The loop of [findDropletByFilter]; [names] is the slice the source
    calls [list], grown by [append]. *)
Fixpoint findDropletByFilter_scan (filter : string) (droplets : list Droplet.t)
  (names : list string) : list string :=
  match droplets with
  | [] => names
  | d :: rest =>
      if Contains (Droplet.Name d) filter
      then findDropletByFilter_scan filter rest (names ++ [Droplet.Name d])
      else findDropletByFilter_scan filter rest names
  end.

Definition findDropletByFilter (do : DigitalOcean.t) (filter : string)
  : Prog (list string * option error) :=
  DropletsList listOptions (fun r =>
    match r with
    | Err err => Ret ([], Some err)
    | Ok droplets => Ret (findDropletByFilter_scan filter droplets [], None)
    end).

Definition NodeAddresses {U : Unicode} (do : DigitalOcean.t) (name : string)
  : Prog (list api.NodeAddress * option error) :=
  r <- findDroplet do name ;;
  match r with
  | Err err => Ret ([], Some err)
  | Ok droplet =>
      let '(internalIP, err) := Droplet.PrivateIPv4 droplet in
      match err with
      | Some err => Ret ([], Some err)
      | None =>
          let '(externalIP, err) := Droplet.PublicIPv4 droplet in
          match err with
          | Some err => Ret ([], Some err)
          | None =>
              let addresses := [] in
              let addresses := addresses ++
                [ {| api.Type' := api.NodeInternalIP;
                     api.Address := internalIP |} ] in
              (* Legacy compatibility: the private ip was the legacy host ip *)
              let addresses := addresses ++
                [ {| api.Type' := api.NodeLegacyHostIP;
                     api.Address := internalIP |} ] in
              let addresses := addresses ++
                [ {| api.Type' := api.NodeExternalIP;
                     api.Address := externalIP |} ] in
              Ret (addresses, None)
          end
      end
  end.

Definition ExternalID {U : Unicode} (do : DigitalOcean.t) (nodeName : string)
  : Prog (string * option error) :=
  r <- findDroplet do nodeName ;;
  match r with
  | Err _ => Ret ("", Some InstanceNotFound)
  | Ok droplet => Ret (Itoa (Droplet.ID droplet), None)
  end.

Definition InstanceID {U : Unicode} (do : DigitalOcean.t) (nodeName : string)
  : Prog (string * option error) :=
  r <- findDroplet do nodeName ;;
  match r with
  | Err _ => Ret ("", Some InstanceNotFound)
  | Ok droplet => Ret (Itoa (Droplet.ID droplet), None)
  end.

Definition nil_dereference : string :=
  "invalid memory address or nil pointer dereference".

Definition LocalInstanceID (do : DigitalOcean.t)
  : Prog (string * option error) :=
  match DigitalOcean.selfDOInstance do with
  | None => Panic nil_dereference
  | Some self => Ret (Itoa (doInstance.dropletID self), None)
  end.

Definition InstanceType {U : Unicode} (do : DigitalOcean.t) (nodeName : string)
  : Prog (string * option error) :=
  r <- findDroplet do nodeName ;;
  match r with
  | Err _ => Ret ("", Some InstanceNotFound)
  | Ok droplet =>
      match Droplet.Size droplet with
      | None => Panic nil_dereference
      | Some size => Ret (Size.Slug size, None)
      end
  end.

Definition List (do : DigitalOcean.t) (filter : string)
  : Prog (list string * option error) :=
  r <- findDropletByFilter do filter ;;
  let '(names, err) := r in
  match err with
  | Some _ => Ret ([], Some InstanceNotFound)
  | None => Ret (names, None)
  end.

Definition CurrentNodeName {U : Unicode} (do : DigitalOcean.t) (hostname :
    string)
  : Prog (string * option error) :=
  r <- findDroplet do hostname ;;
  match r with
  | Err _ => Ret ("", Some InstanceNotFound)
  | Ok droplet => Ret (ToLower (Droplet.Name droplet), None)
  end.

Definition GetRegion (do : DigitalOcean.t) : string := DigitalOcean.region do.

Definition GetZone (do : DigitalOcean.t) : Prog (Zone.t * option error) :=
  match DigitalOcean.selfDOInstance do with
  | None => Panic nil_dereference
  | Some self =>
      Ret ({| Zone.FailureDomain := doInstance.region self;
              Zone.Region := doInstance.region self |}, None)
  end.

(** ** Volumes *)

(** [volumeIsUsed] returns true if a volume is attached to a node. *)
Definition volumeIsUsed (do : DigitalOcean.t) (volumeID : string)
  : Prog (bool * option error) :=
  StorageGetVolume volumeID (fun r =>
    match r with
    | Err err => Ret (false, Some err)
    | Ok volume =>
        if (0 <? length (Volume.DropletIDs volume))%nat
        then Ret (true, None)
        else Ret (false, None)
    end).

Definition in_use_msg (volumeID : string) : string :=
  "Cannot delete the volume " +:+ volumeID +:+
  ", it's still attached to a node".

Definition DeleteVolume (do : DigitalOcean.t) (volumeID : string)
  : Prog (option error) :=
  r <- volumeIsUsed do volumeID ;;
  let '(used, err) := r in
  match err with
  | Some err => Ret (Some err)
  | None =>
      if used then
        let msg := in_use_msg volumeID in
        Ret (Some (DeletedVolumeInUseError msg))
      else
        StorageDeleteVolume volumeID (fun err => Ret err)
  end.

(** [AttachVolume]; the source tests [err] twice. *)
Definition AttachVolume (do : DigitalOcean.t) (instanceID : Z)
  (volumeID : string) : Prog (string * option error) :=
  StorageActionsAttach volumeID instanceID (fun err =>
    match err with
    | Some err => Ret ("", Some err)
    | None =>
        match err with
        | Some err => Ret ("", Some err)
        | None => Ret (volumeID, None)
        end
    end).

Definition getVolume (do : DigitalOcean.t) (volumeID : string)
  : Prog (result Volume.t) :=
  StorageGetVolume volumeID (fun r =>
    match r with
    | Err err => Ret (Err err)
    | Ok volume => Ret (Ok volume)
    end).

Definition device_dir : string := "/dev/disk/by-id/".
Definition device_marker : string := "scsi-0DO_Volume_".

(** The loop of [GetDevicePath] over the directory entries. *)
Fixpoint GetDevicePath_scan (volumeId : string) (files : list string)
  : Prog string :=
  match files with
  | [] => Ret ""
  | f :: rest =>
      if Contains f device_marker then
        match slice f (String.length device_marker) (String.length f) with
        | None => Panic "slice bounds out of range"
        | Some devid_prefix =>
            if Contains volumeId devid_prefix
            then Ret (path_Join [device_dir; f])
            else GetDevicePath_scan volumeId rest
        end
      else GetDevicePath_scan volumeId rest
  end.

(** [GetDevicePath] returns the path of an attached block storage volume,
    specified by its id.  The error of [ReadDir] is dropped: the loop then
    runs over no entry. *)
Definition GetDevicePath (do : DigitalOcean.t) (volumeId : string)
  : Prog string :=
  ReadDir device_dir (fun r =>
    let files := match r with Ok files => files | Err _ => [] end in
    GetDevicePath_scan volumeId files).

(** [attached[volumeID] = true] for each attachment equal to [instanceID]. *)
Definition mark_attached (instanceID : Z) (volumeID : string)
  (dropletIDs : list Z) (attached : gmap string bool) : gmap string bool :=
  fold_left
    (fun attached i =>
       if i =? instanceID then <[volumeID := true]> attached else attached)
    dropletIDs attached.

(** The second loop of [DisksAreAttached]. *)
Fixpoint DisksAreAttached_scan (do : DigitalOcean.t) (instanceID : Z)
  (volumeIDs : list string) (attached : gmap string bool)
  : Prog (gmap string bool) :=
  match volumeIDs with
  | [] => Ret attached
  | volumeID :: rest =>
      r <- getVolume do volumeID ;;
      match r with
      | Err _ => DisksAreAttached_scan do instanceID rest attached
      | Ok volume =>
          DisksAreAttached_scan do instanceID rest
            (mark_attached instanceID volumeID (Volume.DropletIDs volume)
                           attached)
      end
  end.

(** [DisksAreAttached]: query if a list of volumes are attached to a
    compute instance. *)
Definition DisksAreAttached (do : DigitalOcean.t) (volumeIDs : list string)
  (instanceID : Z) : Prog (gmap string bool * option error) :=
  let attached :=
    fold_left (fun attached volumeID => <[volumeID := false]> attached)
              volumeIDs (∅ : gmap string bool) in
  attached <- DisksAreAttached_scan do instanceID volumeIDs attached ;;
  Ret (attached, None).

(** ** Sample collaborators, for evaluating the methods *)

(** A world without state whose listing, volume table and directory are
    fixed; the other calls succeed. *)
Definition fixed_world (listing : result (list Droplet.t))
  (volumes : string -> result Volume.t) (entries : result (list string))
  (metadata : string -> result Response.t) : World unit :=
  {| account_get := fun s => (None, s);
     droplets_list := fun _ s => (listing, s);
     storage_get_volume := fun id s => (volumes id, s);
     storage_delete_volume := fun _ s => (None, s);
     storage_actions_attach := fun _ _ s => (None, s);
     http_get := fun url s => (metadata url, s);
     read_dir := fun _ s => (entries, s) |}.

(** The sample inputs are ASCII and never reach the Unicode tables; this
    stands in for them where a sample is evaluated. *)
Definition ascii_text : Unicode := {| Map_ToLower := fun s => s |}.

Definition no_volume : string -> result Volume.t :=
  fun _ => Err (ExternalError "volume not found").
Definition no_metadata : string -> result Response.t :=
  fun _ => Err (ExternalError "connection refused").

Definition the_provider : DigitalOcean.t :=
  {| DigitalOcean.provider := {| TokenSource.AccessToken := "123456" |};
     DigitalOcean.region := "nyc1";
     DigitalOcean.selfDOInstance := None |}.

Definition sample_metadata (url : string) : result Response.t :=
  if String.eqb url metadata_region_url
  then Ok {| Response.Body := ("nyc1", None) |}
  else if String.eqb url metadata_id_url
  then Ok {| Response.Body := ("12345", None) |}
  else Err (ExternalError "not found").

Definition sample_config : Config.t :=
  {| Config.Global := {| Config.ApiKey := "123456"; Config.Region := "nyc1" |} |}.

(** ** Notions used in the statements, and sample inputs *)

(** The error a method hands back, nil included. *)
Definition error_of {A} (o : outcome (A * option error)) : option error :=
  match o with
  | Done (_, err) => err
  | Panicked _ => None
  end.

Definition unreachable_world : World unit :=
  fixed_world (Err (ExternalError "connection timed out")) no_volume
              (Ok []) no_metadata.

Definition web1 : Droplet.t :=
  {| Droplet.ID := 101; Droplet.Name := "Web-1";
     Droplet.Size := Some {| Size.Slug := "512mb" |};
     Droplet.PrivateIPv4 := ("10.0.0.5", None);
     Droplet.PublicIPv4 := ("203.0.113.7", None) |}.

(** A droplet without public address: on such a record the accessor of
    godo hands back the empty string and no error. *)
Definition private_only : Droplet.t :=
  {| Droplet.ID := 102; Droplet.Name := "db-1";
     Droplet.Size := Some {| Size.Slug := "512mb" |};
     Droplet.PrivateIPv4 := ("10.0.0.9", None);
     Droplet.PublicIPv4 := ("", None) |}.

Definition private_only_world : World unit :=
  fixed_world (Ok [private_only]) no_volume (Ok []) no_metadata.

Definition web1_world : World unit :=
  fixed_world (Ok [web1]) no_volume (Ok []) no_metadata.

(** The three keys by which a droplet answers to a queried name. *)
Definition name_matches {U : Unicode} (name : string) (d : Droplet.t) : bool :=
  String.eqb (ToLower name) (ToLower (Droplet.Name d)).

Definition address_matches (name : string) (a : string * option error)
  : bool :=
  is_nil (snd a) && String.eqb name (fst a).

Definition identifies {U : Unicode} (name : string) (d : Droplet.t) : bool :=
  name_matches name d
  || address_matches name (Droplet.PrivateIPv4 d)
  || address_matches name (Droplet.PublicIPv4 d).

(** The resolution with a priority over the whole listing: a match by
    name anywhere, else a match by private address anywhere, else a match
    by public address anywhere. *)
Definition findByIdentity_priority {U : Unicode} (name : string)
  (droplets : list Droplet.t)
  : result Droplet.t :=
  match List.find (name_matches name) droplets with
  | Some d => Ok d
  | None =>
      match List.find
              (fun d => address_matches name (Droplet.PrivateIPv4 d))
              droplets with
      | Some d => Ok d
      | None =>
          match List.find
                  (fun d => address_matches name (Droplet.PublicIPv4 d))
                  droplets with
          | Some d => Ok d
          | None => Err ErrNotFound
          end
      end
  end.

Definition node_a : Droplet.t :=
  {| Droplet.ID := 1; Droplet.Name := "node-a";
     Droplet.Size := Some {| Size.Slug := "512mb" |};
     Droplet.PrivateIPv4 := ("10.0.0.1", None);
     Droplet.PublicIPv4 := ("198.51.100.1", None) |}.

(** A droplet whose name is the private address of [node_a]. *)
Definition node_b : Droplet.t :=
  {| Droplet.ID := 2; Droplet.Name := "10.0.0.1";
     Droplet.Size := Some {| Size.Slug := "512mb" |};
     Droplet.PrivateIPv4 := ("10.0.0.2", None);
     Droplet.PublicIPv4 := ("198.51.100.2", None) |}.

Definition two_nodes_world : World unit :=
  fixed_world (Ok [node_a; node_b]) no_volume (Ok []) no_metadata.

Definition named (name : string) : Droplet.t :=
  {| Droplet.ID := 7; Droplet.Name := name; Droplet.Size := None;
     Droplet.PrivateIPv4 := ("", None); Droplet.PublicIPv4 := ("", None) |}.

Definition api_db_world : World unit :=
  fixed_world (Ok [named "api-1"; named "api-2"; named "db-1"]) no_volume
              (Ok []) no_metadata.

Definition attached_volume : Volume.t :=
  {| Volume.ID := "vol-1"; Volume.Name := "data"; Volume.DropletIDs := [101] |}.
Definition free_volume : Volume.t :=
  {| Volume.ID := "vol-2"; Volume.Name := "logs"; Volume.DropletIDs := [] |}.

Definition sample_volumes (id : string) : result Volume.t :=
  if String.eqb id "vol-1" then Ok attached_volume
  else if String.eqb id "vol-2" then Ok free_volume
  else no_volume id.

Definition volumes_world : World unit :=
  fixed_world (Ok [web1]) sample_volumes (Ok []) no_metadata.

(** Whether an answer of the volume lookup shows the instance attached. *)
Definition attached_to (instanceID : Z) (ans : result Volume.t) : bool :=
  match ans with
  | Err _ => false
  | Ok volume => bool_decide (instanceID ∈ Volume.DropletIDs volume)
  end.

(** The answers the lookups of [volumeIDs] get, in order. *)
Fixpoint lookups {St} (w : World St) (volumeIDs : list string) (s : St)
  : list (string * result Volume.t) :=
  match volumeIDs with
  | [] => []
  | volumeID :: rest =>
      let '(ans, s') := storage_get_volume w volumeID s in
      (volumeID, ans) :: lookups w rest s'
  end.

Definition lookup_event (p : string * result Volume.t) : event :=
  EvStorageGetVolume (fst p) (snd p).

Definition record_lookup (instanceID : Z) (attached : gmap string bool)
  (p : string * result Volume.t) : gmap string bool :=
  match snd p with
  | Err _ => attached
  | Ok volume =>
      mark_attached instanceID (fst p) (Volume.DropletIDs volume) attached
  end.

(** The test the loop of [GetDevicePath] applies to an entry. *)
Definition entry_matches (volumeId f : string) : bool :=
  Contains f device_marker &&
  match slice f (String.length device_marker) (String.length f) with
  | Some devid_prefix => Contains volumeId devid_prefix
  | None => false
  end.

(** An entry names the volume when it is the marker followed by a suffix
    that occurs in the volume id. *)
Definition names_volume (volumeId f : string) : Prop :=
  exists suffix,
    f = device_marker +:+ suffix /\
    exists pre post, volumeId = pre +:+ suffix +:+ post.

Definition by_id_world (entries : list string) : World unit :=
  fixed_world (Ok []) no_volume (Ok entries) no_metadata.

(** ** Further functions of the package *)

(** [min]: helper func *)
Definition min (a b : Z) : Z := if a <? b then a else b.

Definition no_config_msg : string :=
  "no DigitalOcean cloud provider config file given. Restart process with --cloud-provider=digitalocean --cloud-config=[path_to_config_file]".

(** [Config{}] *)
Definition empty_Config : Config.t :=
  {| Config.Global := {| Config.ApiKey := ""; Config.Region := "" |} |}.

(** [readConfig].  A reader is [None] when nil and otherwise the text it
    yields; [ReadInto] stands for [gcfg.ReadInto] applied to a zero
    [Config]: the config as the parser filled it, and the parser's
    error. *)
Definition readConfig (ReadInto : string -> Config.t * option error)
  (config : option string) : Config.t * option error :=
  match config with
  | None =>
      let err := ErrorString no_config_msg in
      (empty_Config, Some err)
  | Some config =>
      let '(cfg, err) := ReadInto config in
      (cfg, err)
  end.

(** The function that [init] registers under [ProviderName]. *)
Definition init_factory (ReadInto : string -> Config.t * option error)
  (config : option string) : Prog (result DigitalOcean.t) :=
  let '(cfg, err) := readConfig ReadInto config in
  match err with
  | Some err => Ret (Err err)
  | None => newDigitalOcean cfg
  end.

Definition not_attached_msg (volumeID : string) (instanceID : Z) : string :=
  "volume " +:+ volumeID +:+ " is not attached to " +:+ Itoa instanceID.

(** The loop shared by [GetAttachmentVolumePath] and [DiskIsAttached]:
    [attached] becomes true at each attachment equal to [instanceID]. *)
Definition scan_attached (instanceID : Z) (dropletIDs : list Z) : bool :=
  fold_left (fun attached i => if i =? instanceID then true else attached)
            dropletIDs false.

(** [GetAttachmentVolumePath]: get device path of attached volume to the
    compute running kubelet. *)
Definition GetAttachmentVolumePath (do : DigitalOcean.t) (instanceID : Z)
  (volumeID : string) : Prog (string * option error) :=
  r <- getVolume do volumeID ;;
  match r with
  | Err err => Ret ("", Some err)
  | Ok volume =>
      if (length (Volume.DropletIDs volume) =? 0)%nat
      then Ret ("", Some (ErrorString (not_attached_msg volumeID instanceID)))
      else
        let attached := scan_attached instanceID (Volume.DropletIDs volume) in
        if negb attached
        then Ret ("", Some (ErrorString
                              (not_attached_msg volumeID instanceID)))
        else Ret ("/dev/disk/by-id/scsi-0DO_Volume_" +:+ Volume.Name volume,
                  None)
  end.

(** [DiskIsAttached]: query if a volume is attached to a compute
    instance. *)
Definition DiskIsAttached (do : DigitalOcean.t) (volumeID : string)
  (instanceID : Z) : Prog (bool * option error) :=
  r <- getVolume do volumeID ;;
  match r with
  | Err err => Ret (false, Some err)
  | Ok volume =>
      if (length (Volume.DropletIDs volume) =? 0)%nat
      then Ret (false, None)
      else
        let attached := scan_attached instanceID (Volume.DropletIDs volume) in
        Ret (attached, None)
  end.

(** A name without a slash, as the name of a directory entry is. *)
Fixpoint no_slash (s : string) : bool :=
  match s with
  | EmptyString => true
  | String c s' => negb (Ascii.eqb c "/") && no_slash s'
  end.

(** A parser for the samples: it knows one text. *)
Definition sample_ReadInto (text : string) : Config.t * option error :=
  if String.eqb text "[Global] Region = nyc1 ApiKey = 123456"
  then (sample_config, None)
  else (empty_Config, Some (ExternalError "parse error")).

(** * Results *)

(** ** Running programs *)

Lemma run_bind {St A B} (w : World St) (p : Prog A) (f : A -> Prog B) s :
  run w (bind p f) s =
  match returned (run w p s) with
  | Done a =>
      let r := run w (f a) (final (run w p s)) in
      {| returned := returned r; final := final r;
         calls := calls (run w p s) ++ calls r |}
  | Panicked msg =>
      {| returned := Panicked msg; final := final (run w p s);
         calls := calls (run w p s) |}
  end.
Proof.
  revert s.
  induction p as [a|msg|k IH|opt k IH|v k IH|v k IH|v d k IH|url k IH|d k IH];
    intros s; simpl.
  - by destruct (run w (f a) s).
  - done.
  - destruct (account_get w s) as [r s']. rewrite IH.
    by destruct (run w (k r) s') as [[a|msg] fs cs].
  - destruct (droplets_list w opt s) as [r s']. rewrite IH.
    by destruct (run w (k r) s') as [[a|msg] fs cs].
  - destruct (storage_get_volume w v s) as [r s']. rewrite IH.
    by destruct (run w (k r) s') as [[a|msg] fs cs].
  - destruct (storage_delete_volume w v s) as [r s']. rewrite IH.
    by destruct (run w (k r) s') as [[a|msg] fs cs].
  - destruct (storage_actions_attach w v d s) as [r s']. rewrite IH.
    by destruct (run w (k r) s') as [[a|msg] fs cs].
  - destruct (http_get w url s) as [r s']. rewrite IH.
    by destruct (run w (k r) s') as [[a|msg] fs cs].
  - destruct (read_dir w d s) as [r s']. rewrite IH.
    by destruct (run w (k r) s') as [[a|msg] fs cs].
Qed.

(** What [findDroplet] returns is decided by the answer to its one
    listing call. *)
Lemma findDroplet_run {U : Unicode} {St} (w : World St) s do name :
  run w (findDroplet do name) s =
  let '(r, s') := droplets_list w listOptions s in
  {| returned := Done (match r with
                       | Err err => Err err
                       | Ok droplets => findDroplet_scan name droplets
                       end);
     final := s';
     calls := [EvDropletsList listOptions r] |}.
Proof.
  unfold findDroplet. simpl.
  by destruct (droplets_list w listOptions s) as [[droplets|err] s'].
Qed.

(** A method that starts with [findDroplet] and goes on with [f]. *)
Lemma after_findDroplet {U : Unicode} {St A} (w : World St) s do name
    (f : result Droplet.t -> Prog A) r :
  returned (run w (findDroplet do name) s) = Done r ->
  returned (run w (bind (findDroplet do name) f) s) =
  returned (run w (f r) (final (run w (findDroplet do name) s))).
Proof. intros H. rewrite run_bind, H. done. Qed.

(** ** The self instance *)

(** No provider that [newDigitalOcean] returns carries a self instance:
    the value resolved by [buildSelfDOInstance] is not stored. *)
Lemma newDigitalOcean_returns {St} (w : World St) s cfg do :
  returned (run w (newDigitalOcean cfg) s) = Done (Ok do) ->
  do = {| DigitalOcean.provider :=
            {| TokenSource.AccessToken := Config.ApiKey (Config.Global cfg) |};
          DigitalOcean.region := Config.Region (Config.Global cfg);
          DigitalOcean.selfDOInstance := None |}.
Proof.
  unfold newDigitalOcean. simpl.
  destruct (account_get w s) as [[err|] s1]; simpl; [discriminate|].
  destruct (http_get w metadata_region_url s1) as [[resp|err] s2]; simpl;
    [|discriminate].
  destruct (Response.Body resp) as [dropletRegion e1]; simpl.
  destruct (http_get w metadata_id_url s2) as [[resp'|err] s3]; simpl;
    [|discriminate].
  destruct (Response.Body resp') as [dropletID e2].
  destruct (Atoi dropletID) as [intDropletID [err|]]; simpl;
    intros H; by inversion H.
Qed.

(** C1 (the code departs from it): a provider returned by
    [newDigitalOcean] has a nil self instance, so that [LocalInstanceID]
    on it does not return the droplet id resolved during construction: it
    panics on the nil pointer. *)
Theorem LocalInstanceID_after_newDigitalOcean
    {St} (w : World St) s s' cfg do :
  returned (run w (newDigitalOcean cfg) s) = Done (Ok do) ->
  DigitalOcean.selfDOInstance do = None /\
  returned (run w (LocalInstanceID do) s') = Panicked nil_dereference.
Proof.
  intros H. apply newDigitalOcean_returns in H. by subst do.
Qed.

(** The metadata service answers droplet id 12345; construction succeeds
    and [LocalInstanceID] panics. *)
Lemma LocalInstanceID_after_newDigitalOcean_12345 :
  let w := fixed_world (Ok []) no_volume (Ok []) sample_metadata in
  let r := run w (newDigitalOcean sample_config) tt in
  returned r = Done (Ok the_provider) /\
  In (EvHttpGet metadata_id_url (Ok {| Response.Body := ("12345", None) |}))
     (calls r) /\
  DigitalOcean.selfDOInstance the_provider = None /\
  returned (run w (LocalInstanceID the_provider) tt) =
    Panicked nil_dereference.
Proof.
  assert (H : returned (run (fixed_world (Ok []) no_volume (Ok [])
                              sample_metadata)
                            (newDigitalOcean sample_config) tt)
              = Done (Ok the_provider)) by reflexivity.
  split; [exact H|]. split; [simpl; tauto|].
  exact (LocalInstanceID_after_newDigitalOcean _ tt tt _ _ H).
Defined.

(** ** Capability accessors *)

(** C7 (the code departs from it): the instances accessor hands out the
    provider with a true flag, the load-balancer, routes and cluster
    accessors hand out nil with a false flag, and the zones accessor hands
    out the provider with a false flag. *)
Theorem capability_flags (do : DigitalOcean.t) :
  Instances do = (Some do, true) /\
  Zones do = (Some do, false) /\
  LoadBalancer do = (None, false) /\
  Routes do = (None, false) /\
  Clusters do = (None, false).
Proof. by repeat split. Qed.

(** ** Lookup failures at the capability surface *)

(** C3, as amended: when the lookup of the node fails, with whatever
    error, [ExternalID], [InstanceID], [CurrentNodeName] and also
    [InstanceType] return the canonical [InstanceNotFound]; only
    [NodeAddresses] returns the error of the lookup unchanged. *)
Theorem lookup_failure_policy {U : Unicode} {St} (w : World St) s do name e :
  returned (run w (findDroplet do name) s) = Done (Err e) ->
  returned (run w (ExternalID do name) s) = Done ("", Some InstanceNotFound) /\
  returned (run w (InstanceID do name) s) = Done ("", Some InstanceNotFound) /\
  returned (run w (CurrentNodeName do name) s)
    = Done ("", Some InstanceNotFound) /\
  returned (run w (InstanceType do name) s)
    = Done ("", Some InstanceNotFound) /\
  returned (run w (NodeAddresses do name) s) = Done ([], Some e).
Proof.
  intros H.
  unfold ExternalID, InstanceID, CurrentNodeName, InstanceType, NodeAddresses.
  rewrite !(after_findDroplet _ _ _ _ _ _ H). by repeat split.
Qed.

Lemma lookup_failure_policy_timeout :
  returned (run unreachable_world (findDroplet (U := ascii_text) the_provider
      "node-1") tt)
    = Done (Err (ExternalError "connection timed out")) /\
  returned (run unreachable_world (ExternalID (U := ascii_text) the_provider
      "node-1") tt)
    = Done ("", Some InstanceNotFound) /\
  returned (run unreachable_world (InstanceID (U := ascii_text) the_provider
      "node-1") tt)
    = Done ("", Some InstanceNotFound) /\
  returned (run unreachable_world (CurrentNodeName (U := ascii_text)
      the_provider "node-1") tt)
    = Done ("", Some InstanceNotFound) /\
  returned (run unreachable_world (InstanceType (U := ascii_text) the_provider
      "node-1") tt)
    = Done ("", Some InstanceNotFound) /\
  returned (run unreachable_world (NodeAddresses (U := ascii_text)
      the_provider "node-1") tt)
    = Done ([], Some (ExternalError "connection timed out")).
Proof.
  split; [reflexivity|].
  apply (lookup_failure_policy (U := ascii_text) unreachable_world tt
      the_provider "node-1").
  reflexivity.
Defined.

(** C3, as stated, fails for [InstanceType]: the lookup fails with a
    transport error and [InstanceType] hands back another error. *)
Lemma InstanceType_replaces_lookup_error :
  returned (run unreachable_world (findDroplet (U := ascii_text) the_provider
      "node-1") tt)
    = Done (Err (ExternalError "connection timed out")) /\
  error_of (returned (run unreachable_world
                        (InstanceType (U := ascii_text) the_provider "node-1")
                            tt))
    <> Some (ExternalError "connection timed out").
Proof. split; [reflexivity|]. simpl. discriminate. Qed.

(** ** Addresses of a node *)

(** C6, as amended: when the lookup finds the droplet and both address
    accessors return without error, [NodeAddresses] returns the three
    addresses internal, legacy host (the internal address again),
    external, in this order, with the addresses as the accessors gave
    them; when the lookup fails, or an accessor reports an error,
    [NodeAddresses] returns an error. *)
Theorem NodeAddresses_spec {U : Unicode} {St} (w : World St) s do name :
  let found := returned (run w (findDroplet do name) s) in
  let r := returned (run w (NodeAddresses do name) s) in
  (forall droplet internalIP externalIP,
     found = Done (Ok droplet) ->
     Droplet.PrivateIPv4 droplet = (internalIP, None) ->
     Droplet.PublicIPv4 droplet = (externalIP, None) ->
     r = Done ([ {| api.Type' := api.NodeInternalIP;
                    api.Address := internalIP |};
                 {| api.Type' := api.NodeLegacyHostIP;
                    api.Address := internalIP |};
                 {| api.Type' := api.NodeExternalIP;
                    api.Address := externalIP |} ], None)) /\
  (forall e, found = Done (Err e) -> r = Done ([], Some e)) /\
  (forall droplet,
     found = Done (Ok droplet) ->
     snd (Droplet.PrivateIPv4 droplet) <> None \/
     snd (Droplet.PublicIPv4 droplet) <> None ->
     exists e, r = Done ([], Some e)).
Proof.
  intros found r. subst found r. unfold NodeAddresses.
  split; [|split].
  - intros droplet internalIP externalIP H Hpriv Hpub.
    rewrite (after_findDroplet _ _ _ _ _ _ H), Hpriv, Hpub. reflexivity.
  - intros e H. rewrite (after_findDroplet _ _ _ _ _ _ H). reflexivity.
  - intros droplet H Hunset.
    rewrite (after_findDroplet _ _ _ _ _ _ H).
    destruct (Droplet.PrivateIPv4 droplet) as [internalIP [e1|]];
      [by exists e1|].
    destruct (Droplet.PublicIPv4 droplet) as [externalIP [e2|]];
      [by exists e2|].
    simpl in Hunset. by destruct Hunset.
Qed.

Lemma NodeAddresses_spec_web1 :
  returned (run web1_world (NodeAddresses (U := ascii_text) the_provider
      "web-1") tt) =
  Done ([ {| api.Type' := api.NodeInternalIP; api.Address := "10.0.0.5" |};
          {| api.Type' := api.NodeLegacyHostIP; api.Address := "10.0.0.5" |};
          {| api.Type' := api.NodeExternalIP;
             api.Address := "203.0.113.7" |} ], None).
Proof.
  apply (proj1 (NodeAddresses_spec (U := ascii_text) web1_world tt
      the_provider "web-1") web1);
    reflexivity.
Defined.

(** C6, as stated, fails: the public address is unset on the record, the
    accessor reports no error, and [NodeAddresses] succeeds with an empty
    external address. *)
Lemma NodeAddresses_unset_address :
  Droplet.PublicIPv4 private_only = ("", None) /\
  returned (run private_only_world
              (NodeAddresses (U := ascii_text) the_provider "db-1") tt) =
  Done ([ {| api.Type' := api.NodeInternalIP; api.Address := "10.0.0.9" |};
          {| api.Type' := api.NodeLegacyHostIP; api.Address := "10.0.0.9" |};
          {| api.Type' := api.NodeExternalIP; api.Address := "" |} ], None) /\
  error_of (returned (run private_only_world
                        (NodeAddresses (U := ascii_text) the_provider "db-1")
                        tt)) = None.
Proof. repeat split. Qed.

(** ** The instance directory *)

Lemma findDroplet_scan_step {U : Unicode} name d rest :
  findDroplet_scan name (d :: rest) =
  if identifies name d then Ok d else findDroplet_scan name rest.
Proof.
  unfold identifies, name_matches, address_matches. simpl.
  destruct (String.eqb (ToLower name) (ToLower (Droplet.Name d))); [done|].
  destruct (Droplet.PrivateIPv4 d) as [ip1 e1]; simpl.
  destruct (is_nil e1 && String.eqb name ip1); [done|].
  destruct (Droplet.PublicIPv4 d) as [ip2 e2]; simpl.
  by destruct (is_nil e2 && String.eqb name ip2).
Qed.

Lemma findDroplet_scan_first {U : Unicode} name before d after :
  (forall x, In x before -> identifies name x = false) ->
  identifies name d = true ->
  findDroplet_scan name (before ++ d :: after) = Ok d.
Proof.
  induction before as [|x before IH]; intros Hbefore Hd.
  - simpl app. by rewrite findDroplet_scan_step, Hd.
  - change ((x :: before) ++ d :: after) with (x :: (before ++ d :: after)).
    rewrite findDroplet_scan_step, (Hbefore x) by (by left).
    apply IH; [|done]. intros y Hy. apply Hbefore. by right.
Qed.

Lemma findDroplet_scan_none {U : Unicode} name droplets :
  (forall x, In x droplets -> identifies name x = false) ->
  findDroplet_scan name droplets = Err ErrNotFound.
Proof.
  induction droplets as [|x droplets IH]; intros Hnone; [done|].
  rewrite findDroplet_scan_step, (Hnone x) by (by left).
  apply IH. intros y Hy. apply Hnone. by right.
Qed.

(** C2, as amended: over a listing, [findDroplet] returns the first
    droplet, in the order of the listing, that matches the query by any of
    the three keys (name without regard to case, private address, public
    address); when no droplet matches by any key the result is
    [ErrNotFound]. *)
Theorem findDroplet_first_match {U : Unicode} {St} (w : World St) s do name
    droplets :
  fst (droplets_list w listOptions s) = Ok droplets ->
  let r := returned (run w (findDroplet do name) s) in
  (forall before d after,
     droplets = before ++ d :: after ->
     (forall x, In x before -> identifies name x = false) ->
     identifies name d = true ->
     r = Done (Ok d)) /\
  ((forall x, In x droplets -> identifies name x = false) ->
   r = Done (Err ErrNotFound)).
Proof.
  intros Hlist r. subst r. rewrite findDroplet_run.
  destruct (droplets_list w listOptions s) as [ans s']. simpl in Hlist.
  subst ans. simpl. split.
  - intros before d after -> Hbefore Hd.
    by rewrite findDroplet_scan_first.
  - intros Hnone. by rewrite findDroplet_scan_none.
Qed.

Lemma findDroplet_first_match_two_nodes :
  returned (run two_nodes_world (findDroplet (U := ascii_text) the_provider
      "10.0.0.2") tt)
    = Done (Ok node_b) /\
  returned (run two_nodes_world (findDroplet (U := ascii_text) the_provider
      "node-c") tt)
    = Done (Err ErrNotFound).
Proof.
  split.
  - apply (proj1 (findDroplet_first_match (U := ascii_text) two_nodes_world tt
      the_provider
                    "10.0.0.2" [node_a; node_b] eq_refl)
                 [node_a] node_b []); [reflexivity| |reflexivity].
    intros x [<-|[]]. reflexivity.
  - apply (proj2 (findDroplet_first_match (U := ascii_text) two_nodes_world tt
      the_provider
                    "node-c" [node_a; node_b] eq_refl)).
    intros x [<-|[<-|[]]]; reflexivity.
Defined.

(** C2, as stated, fails: the query is the name of the second droplet and
    the private address of the first; a match by name should win, and the
    first droplet is returned. *)
Lemma findDroplet_not_by_priority :
  name_matches (U := ascii_text) "10.0.0.1" node_b = true /\
  name_matches (U := ascii_text) "10.0.0.1" node_a = false /\
  findByIdentity_priority (U := ascii_text) "10.0.0.1" [node_a; node_b] = Ok
      node_b /\
  returned (run two_nodes_world (findDroplet (U := ascii_text) the_provider
      "10.0.0.1") tt)
    = Done (Ok node_a) /\
  returned (run two_nodes_world (findDroplet (U := ascii_text) the_provider
      "10.0.0.1") tt)
    <> Done (findByIdentity_priority (U := ascii_text) "10.0.0.1" [node_a;
        node_b]).
Proof. repeat split; try reflexivity. simpl. discriminate. Qed.

(** The samples are ASCII: what the methods return on them is the same
    whatever the Unicode tables are. *)
Remark samples_whatever_the_tables {U : Unicode} :
  returned (run two_nodes_world (findDroplet the_provider "10.0.0.1") tt)
    = Done (Ok node_a) /\
  findByIdentity_priority "10.0.0.1" [node_a; node_b] = Ok node_b /\
  returned (run unreachable_world (InstanceType the_provider "node-1") tt)
    = Done ("", Some InstanceNotFound) /\
  returned (run private_only_world (NodeAddresses the_provider "db-1") tt)
    = Done ([ {| api.Type' := api.NodeInternalIP;
                 api.Address := "10.0.0.9" |};
              {| api.Type' := api.NodeLegacyHostIP;
                 api.Address := "10.0.0.9" |};
              {| api.Type' := api.NodeExternalIP; api.Address := "" |} ],
            None).
Proof. repeat split. Qed.

(** ** Substrings *)

Lemma HasPrefix_spec s prefix :
  HasPrefix s prefix = true <-> exists post, s = prefix +:+ post.
Proof.
  revert s. induction prefix as [|a p IH]; intros s; simpl.
  - split; [intros _; by exists s|done].
  - destruct s as [|b s]; simpl.
    + split; [done|]. intros [post H]. discriminate.
    + rewrite andb_true_iff, Ascii.eqb_eq, IH. split.
      * intros [-> [post ->]]. by exists post.
      * intros [post H]. injection H as -> ->. split; [done|by exists post].
Qed.

Lemma Contains_unfold s substr :
  Contains s substr =
  HasPrefix s substr ||
  match s with
  | EmptyString => false
  | String _ s' => Contains s' substr
  end.
Proof. by destruct s. Qed.

(** [Contains s substr] holds exactly when [substr] is a run of
    consecutive bytes of [s], compared byte for byte. *)
Lemma Contains_spec s substr :
  Contains s substr = true <->
  exists pre post, s = pre +:+ substr +:+ post.
Proof.
  split.
  - induction s as [|c s IH]; simpl; rewrite orb_true_iff.
    + intros [H|H]; [|done]. apply HasPrefix_spec in H as [post H].
      by exists "", post.
    + intros [H|H].
      * apply HasPrefix_spec in H as [post H]. by exists "", post.
      * destruct (IH H) as (pre & post & ->). by exists (String c pre), post.
  - intros (pre & post & ->).
    induction pre as [|c pre IH].
    + assert (H : HasPrefix (substr +:+ post) substr = true)
        by (apply HasPrefix_spec; by exists post).
      change ("" +:+ substr +:+ post) with (substr +:+ post).
      rewrite Contains_unfold, H. reflexivity.
    + change (String c pre +:+ substr +:+ post)
        with (String c (pre +:+ substr +:+ post)).
      rewrite Contains_unfold, IH. apply orb_true_r.
Qed.

Lemma HasPrefix_Contains s prefix :
  HasPrefix s prefix = true -> Contains s prefix = true.
Proof.
  intros H. apply HasPrefix_spec in H as [post ->].
  apply Contains_spec. by exists "", post.
Qed.

(** ** Listing by name *)

Lemma findDropletByFilter_scan_filter filter droplets names :
  findDropletByFilter_scan filter droplets names =
  names ++ List.filter (fun n => Contains n filter)
                       (List.map Droplet.Name droplets).
Proof.
  revert names. induction droplets as [|d droplets IH]; intros names; simpl.
  - by rewrite app_nil_r.
  - destruct (Contains (Droplet.Name d) filter); rewrite IH; [|done].
    by rewrite <- app_assoc.
Qed.

(** C9: over a listing, [findDropletByFilter] returns, without error, the
    names of the droplets whose name has the filter as a run of
    consecutive bytes, in the order of the listing and once per droplet;
    the names api-1, api-2, db-1 filtered by api give api-1, api-2. *)
Theorem findDropletByFilter_spec :
  (forall St (w : World St) s do filter droplets,
     fst (droplets_list w listOptions s) = Ok droplets ->
     exists names,
       returned (run w (findDropletByFilter do filter) s)
         = Done (names, None) /\
       names = List.map Droplet.Name
                 (List.filter (fun d => Contains (Droplet.Name d) filter)
                              droplets) /\
       (forall d, In d droplets ->
          Contains (Droplet.Name d) filter = true <->
          exists pre post, Droplet.Name d = pre +:+ filter +:+ post)) /\
  returned (run api_db_world (findDropletByFilter the_provider "api") tt)
    = Done (["api-1"; "api-2"], None).
Proof.
  split; [|reflexivity].
  intros St w s do filter droplets Hlist.
  unfold findDropletByFilter. simpl.
  destruct (droplets_list w listOptions s) as [ans s']. simpl in Hlist.
  subst ans. simpl. eexists. split; [reflexivity|]. split.
  - rewrite findDropletByFilter_scan_filter. simpl.
    clear. induction droplets as [|d droplets IH]; simpl; [done|].
    destruct (Contains (Droplet.Name d) filter); simpl; by rewrite IH.
  - intros d _. apply Contains_spec.
Qed.

Lemma findDropletByFilter_spec_db :
  exists names,
    returned (run api_db_world (findDropletByFilter the_provider "db") tt)
      = Done (names, None) /\
    names = ["db-1"].
Proof.
  destruct (proj1 findDropletByFilter_spec unit api_db_world tt the_provider
              "db" [named "api-1"; named "api-2"; named "db-1"] eq_refl)
    as (names & Hrun & Hnames & _).
  exists names. split; [exact Hrun|]. rewrite Hnames. reflexivity.
Defined.

(** ** Attaching a volume *)

(** C10: when the attach call of the SDK reports no error, [AttachVolume]
    returns the [volumeID] it was given and no error; and it returns no
    error only then. *)
Theorem AttachVolume_returns_volumeID
    {St} (w : World St) s do instanceID volumeID :
  let r := returned (run w (AttachVolume do instanceID volumeID) s) in
  (fst (storage_actions_attach w volumeID instanceID s) = None ->
   r = Done (volumeID, None)) /\
  (forall str, r = Done (str, None) ->
     str = volumeID /\
     fst (storage_actions_attach w volumeID instanceID s) = None).
Proof.
  intros r. subst r. unfold AttachVolume. simpl.
  destruct (storage_actions_attach w volumeID instanceID s) as [[err|] s'];
    simpl; split; try done.
  intros str H. by inversion H.
Qed.

Lemma AttachVolume_returns_volumeID_vol1 :
  returned (run web1_world (AttachVolume the_provider 101 "vol-1") tt)
    = Done ("vol-1", None).
Proof.
  apply (proj1 (AttachVolume_returns_volumeID web1_world tt the_provider
                  101 "vol-1")).
  reflexivity.
Defined.

(** ** Deleting a volume *)

(** What [DeleteVolume] does, by the answer to its attachment check. *)
Lemma DeleteVolume_run {St} (w : World St) s do volumeID :
  run w (DeleteVolume do volumeID) s =
  let '(ans, s1) := storage_get_volume w volumeID s in
  match ans with
  | Err err =>
      {| returned := Done (Some err); final := s1;
         calls := [EvStorageGetVolume volumeID ans] |}
  | Ok volume =>
      match Volume.DropletIDs volume with
      | _ :: _ =>
          {| returned :=
               Done (Some (DeletedVolumeInUseError (in_use_msg volumeID)));
             final := s1;
             calls := [EvStorageGetVolume volumeID ans] |}
      | [] =>
          let '(err, s2) := storage_delete_volume w volumeID s1 in
          {| returned := Done err; final := s2;
             calls := [EvStorageGetVolume volumeID ans;
                       EvStorageDeleteVolume volumeID err] |}
      end
  end.
Proof.
  unfold DeleteVolume, volumeIsUsed. simpl.
  destruct (storage_get_volume w volumeID s) as [[volume|err] s1]; [|done].
  destruct (Volume.DropletIDs volume) as [|i ids]; simpl; [|done].
  by destruct (storage_delete_volume w volumeID s1) as [err s2].
Qed.

(** C4: when the attachment check finds a volume with a non-empty
    attachment set, [DeleteVolume] returns the volume-in-use error and the
    trace holds no call of the delete endpoint; and a call of the delete
    endpoint is in the trace only when the attachment check, made first,
    succeeded with an empty attachment set. *)
Theorem DeleteVolume_guard {St} (w : World St) s do volumeID :
  let check := fst (storage_get_volume w volumeID s) in
  let r := run w (DeleteVolume do volumeID) s in
  (forall volume,
     check = Ok volume -> Volume.DropletIDs volume <> [] ->
     returned r = Done (Some (DeletedVolumeInUseError (in_use_msg volumeID)))
     /\ forall id ans, ~ In (EvStorageDeleteVolume id ans) (calls r)) /\
  (forall id ans,
     In (EvStorageDeleteVolume id ans) (calls r) ->
     id = volumeID /\
     exists volume,
       check = Ok volume /\ Volume.DropletIDs volume = [] /\
       calls r = [EvStorageGetVolume volumeID (Ok volume);
                  EvStorageDeleteVolume volumeID ans]).
Proof.
  intros check r. subst check r. rewrite DeleteVolume_run.
  destruct (storage_get_volume w volumeID s) as [[volume|err] s1]; simpl.
  - destruct (Volume.DropletIDs volume) as [|i ids] eqn:Hids; simpl.
    + destruct (storage_delete_volume w volumeID s1) as [err s2]; simpl.
      split.
      * intros volume' H Hused. inversion H; subst volume'.
        by rewrite Hids in Hused.
      * intros id ans [H|[H|[]]]; [discriminate|]. inversion H; subst.
        split; [done|]. by exists volume.
    + split.
      * intros volume' _ _. split; [done|].
        intros id ans [H|[]]. discriminate.
      * intros id ans [H|[]]. discriminate.
  - split.
    + intros volume H. discriminate.
    + intros id ans [H|[]]. discriminate.
Qed.

Lemma DeleteVolume_guard_vol1 :
  returned (run volumes_world (DeleteVolume the_provider "vol-1") tt)
    = Done (Some (DeletedVolumeInUseError
                    "Cannot delete the volume vol-1, it's still attached to a node"))
  /\ forall id ans,
       ~ In (EvStorageDeleteVolume id ans)
            (calls (run volumes_world (DeleteVolume the_provider "vol-1") tt)).
Proof.
  apply (proj1 (DeleteVolume_guard volumes_world tt the_provider "vol-1")
               attached_volume); [reflexivity|discriminate].
Defined.

(** ** Attachment of several volumes *)

Lemma lookups_fst {St} (w : World St) volumeIDs s :
  List.map fst (lookups w volumeIDs s) = volumeIDs.
Proof.
  revert s. induction volumeIDs as [|v rest IH]; intros s; simpl; [done|].
  destruct (storage_get_volume w v s) as [ans s']. simpl. by rewrite IH.
Qed.

Lemma mark_attached_spec instanceID volumeID dropletIDs
    (attached : gmap string bool) :
  mark_attached instanceID volumeID dropletIDs attached =
  if bool_decide (instanceID ∈ dropletIDs)
  then <[volumeID := true]> attached else attached.
Proof.
  unfold mark_attached. revert attached.
  induction dropletIDs as [|i ids IH]; intros attached; simpl; [done|].
  rewrite IH. destruct (Z.eqb_spec i instanceID) as [->|Hne].
  - rewrite (bool_decide_eq_true_2 (instanceID ∈ instanceID :: ids))
      by apply list_elem_of_here.
    case_bool_decide; [|done]. by rewrite insert_insert_eq.
  - destruct (decide (instanceID ∈ ids)) as [Hin|Hnin].
    + rewrite !bool_decide_eq_true_2; [done| |done].
      by apply list_elem_of_further.
    + rewrite !bool_decide_eq_false_2; [done| |done].
      intros [H|H]%elem_of_cons; [by apply Hne|by apply Hnin].
Qed.

Lemma record_lookup_spec instanceID (attached : gmap string bool) p :
  record_lookup instanceID attached p =
  if attached_to instanceID (snd p)
  then <[fst p := true]> attached else attached.
Proof.
  unfold record_lookup, attached_to. destruct (snd p) as [volume|err]; [|done].
  apply mark_attached_spec.
Qed.

Lemma DisksAreAttached_scan_run {St} (w : World St) s do instanceID
    volumeIDs (attached : gmap string bool) :
  returned (run w (DisksAreAttached_scan do instanceID volumeIDs attached) s)
    = Done (fold_left (record_lookup instanceID) (lookups w volumeIDs s)
                      attached) /\
  calls (run w (DisksAreAttached_scan do instanceID volumeIDs attached) s)
    = List.map lookup_event (lookups w volumeIDs s).
Proof.
  revert s attached.
  induction volumeIDs as [|v rest IH]; intros s attached; simpl; [done|].
  destruct (storage_get_volume w v s) as [[volume|err] s']; simpl.
  - destruct (IH s' (mark_attached instanceID v (Volume.DropletIDs volume)
                                   attached)) as [-> ->].
    done.
  - by destruct (IH s' attached) as [-> ->].
Qed.

(** The first loop: every listed volume starts as not attached. *)
Lemma mark_all_false_lookup volumeIDs (attached : gmap string bool) id :
  fold_left (fun attached volumeID => <[volumeID := false]> attached)
            volumeIDs attached !! id =
  if bool_decide (id ∈ volumeIDs) then Some false else attached !! id.
Proof.
  revert attached.
  induction volumeIDs as [|v rest IH]; intros attached; simpl; [done|].
  rewrite IH. destruct (decide (id ∈ rest)) as [Hin|Hnin].
  - rewrite !bool_decide_eq_true_2; [done| |done].
    by apply list_elem_of_further.
  - rewrite (bool_decide_eq_false_2 (id ∈ rest)) by done.
    rewrite lookup_insert. destruct (decide (v = id)) as [->|Hne].
    + by rewrite bool_decide_eq_true_2 by apply list_elem_of_here.
    + rewrite bool_decide_eq_false_2; [done|].
      intros [H|H]%elem_of_cons; [by apply Hne|by apply Hnin].
Qed.

(** The second loop: a volume ends as attached when one of its lookups
    showed the instance, and is left as it was otherwise. *)
Lemma record_lookups_lookup instanceID l (attached : gmap string bool) id :
  fold_left (record_lookup instanceID) l attached !! id =
  if existsb (fun p => bool_decide (fst p = id)
                       && attached_to instanceID (snd p)) l
  then Some true else attached !! id.
Proof.
  revert attached. induction l as [|p l IH]; intros attached; simpl; [done|].
  rewrite IH, record_lookup_spec.
  destruct (existsb _ l); [by rewrite orb_true_r|]. rewrite orb_false_r.
  destruct (attached_to instanceID (snd p)).
  - rewrite andb_true_r, lookup_insert.
    destruct (decide (fst p = id)) as [Heq|Hne].
    + by rewrite bool_decide_eq_true_2.
    + by rewrite bool_decide_eq_false_2.
  - by rewrite andb_false_r.
Qed.

Lemma lookup_event_In {St} (w : World St) volumeIDs s id ans :
  In (EvStorageGetVolume id ans) (List.map lookup_event (lookups w volumeIDs s))
  <-> In (id, ans) (lookups w volumeIDs s).
Proof.
  rewrite in_map_iff. split.
  - intros ([id' ans'] & H & Hin). unfold lookup_event in H. simpl in H.
    by inversion H; subst.
  - intros Hin. by exists (id, ans).
Qed.

(** C5: [DisksAreAttached] returns a map and no error.  The map has an
    entry for exactly the listed volumes, each of which was looked up.  A
    volume whose lookup failed is marked false; a volume whose lookup
    succeeded is marked true exactly when the instance is in the
    attachment set that the lookup returned.  (A volume listed more than
    once is looked up more than once: the last part speaks of a volume
    whose lookups all got the same answer, and the part before it says
    what marks a volume true whatever the answers.) *)
Theorem DisksAreAttached_best_effort
    {St} (w : World St) s do volumeIDs instanceID :
  let r := run w (DisksAreAttached do volumeIDs instanceID) s in
  exists attached : gmap string bool,
    returned r = Done (attached, None) /\
    (forall id, In id volumeIDs <-> is_Some (attached !! id)) /\
    (forall id, In id volumeIDs ->
       exists ans, In (EvStorageGetVolume id ans) (calls r)) /\
    (forall id,
       attached !! id = Some true <->
       exists volume,
         In (EvStorageGetVolume id (Ok volume)) (calls r) /\
         instanceID ∈ Volume.DropletIDs volume) /\
    (forall volumeID ans,
       In (EvStorageGetVolume volumeID ans) (calls r) ->
       (forall ans', In (EvStorageGetVolume volumeID ans') (calls r) ->
                     ans' = ans) ->
       match ans with
       | Err _ => attached !! volumeID = Some false
       | Ok volume =>
           attached !! volumeID =
           Some (bool_decide (instanceID ∈ Volume.DropletIDs volume))
       end).
Proof.
  intros r. subst r. unfold DisksAreAttached. rewrite run_bind.
  match goal with
  | |- context [DisksAreAttached_scan do instanceID volumeIDs ?init] =>
      destruct (DisksAreAttached_scan_run w s do instanceID volumeIDs init)
        as [Hret Hcalls]; rewrite Hret; simpl; rewrite Hcalls, app_nil_r;
      set (attached := fold_left (record_lookup instanceID)
                                 (lookups w volumeIDs s) init)
  end.
  clear Hret Hcalls.
  assert (Hkey : forall id,
    attached !! id =
    if existsb (fun p => bool_decide (fst p = id)
                         && attached_to instanceID (snd p))
               (lookups w volumeIDs s)
    then Some true
    else if bool_decide (id ∈ volumeIDs) then Some false else None).
  { intros id. subst attached.
    by rewrite record_lookups_lookup, mark_all_false_lookup, lookup_empty. }
  assert (Hlisted : forall id ans,
    In (id, ans) (lookups w volumeIDs s) -> In id volumeIDs).
  { intros id ans Hin. rewrite <- (lookups_fst w volumeIDs s).
    apply in_map_iff. by exists (id, ans). }
  exists attached. split; [done|]. split; [|split; [|split]].
  - intros id. rewrite Hkey. split.
    + intros Hin. destruct (existsb _ _); [by eexists|].
      rewrite bool_decide_eq_true_2; [by eexists|].
      by apply list_elem_of_In.
    + destruct (existsb _ _) eqn:Hex.
      * intros _. apply existsb_exists in Hex as ([id' ans] & Hin & Hp).
        apply andb_true_iff in Hp as [Hid _].
        apply bool_decide_eq_true_1 in Hid. simpl in Hid. subst id'.
        by apply (Hlisted id ans).
      * case_bool_decide as Hin; [|by intros [? ?]].
        intros _. by apply list_elem_of_In.
  - intros id Hin. rewrite <- (lookups_fst w volumeIDs s) in Hin.
    apply in_map_iff in Hin as ([id' ans] & Hid & Hin). simpl in Hid.
    subst id'. exists ans. by apply lookup_event_In.
  - intros id. rewrite Hkey. split.
    + destruct (existsb _ _) eqn:Hex;
        [intros _|case_bool_decide; discriminate].
      apply existsb_exists in Hex as ([id' ans] & Hin & Hp).
      apply andb_true_iff in Hp as [Hid Hatt].
      apply bool_decide_eq_true_1 in Hid. simpl in Hid, Hatt. subst id'.
      destruct ans as [volume|err]; [|discriminate].
      exists volume. split; [by apply lookup_event_In|].
      by apply bool_decide_eq_true_1 in Hatt.
    + intros (volume & Hin & Hmember). apply lookup_event_In in Hin.
      assert (Hex : existsb
                (fun p => bool_decide (fst p = id)
                          && attached_to instanceID (snd p))
                (lookups w volumeIDs s) = true).
      { apply existsb_exists. exists (id, Ok volume). split; [done|].
        simpl. by rewrite !bool_decide_eq_true_2. }
      by rewrite Hex.
  - intros volumeID ans Hin Hsame.
    apply lookup_event_In in Hin.
    assert (Hattached :
      attached !! volumeID = Some (attached_to instanceID ans)).
    { rewrite Hkey. destruct (existsb _ _) eqn:Hex.
      - apply existsb_exists in Hex as ([id' ans'] & Hin' & Hp).
        apply andb_true_iff in Hp as [Hid Hatt].
        apply bool_decide_eq_true_1 in Hid. simpl in Hid, Hatt. subst id'.
        rewrite <- (Hsame ans'); [by rewrite Hatt|].
        by apply lookup_event_In.
      - rewrite bool_decide_eq_true_2
          by (apply list_elem_of_In; by apply (Hlisted volumeID ans)).
        destruct (attached_to instanceID ans) eqn:Hatt; [|done].
        assert (Hex' : existsb
                  (fun p => bool_decide (fst p = volumeID)
                            && attached_to instanceID (snd p))
                  (lookups w volumeIDs s) = true).
        { apply existsb_exists. exists (volumeID, ans). split; [done|].
          simpl. by rewrite Hatt, bool_decide_eq_true_2. }
        by rewrite Hex' in Hex. }
    by destruct ans.
Qed.

Lemma DisksAreAttached_best_effort_sample :
  exists attached : gmap string bool,
    returned (run volumes_world
                (DisksAreAttached the_provider ["vol-1"; "vol-2"; "vol-3"] 101)
                tt) = Done (attached, None) /\
    attached !! "vol-1" = Some true /\
    attached !! "vol-2" = Some false /\
    attached !! "vol-3" = Some false.
Proof.
  destruct (DisksAreAttached_best_effort volumes_world tt the_provider
              ["vol-1"; "vol-2"; "vol-3"] 101)
    as (attached & Hret & _ & _ & _ & Hmark).
  exists attached. split; [exact Hret|].
  split; [|split].
  - apply (Hmark "vol-1" (Ok attached_volume)); [simpl; tauto|].
    intros ans' [H|[H|[H|[]]]]; by inversion H.
  - apply (Hmark "vol-2" (Ok free_volume)); [simpl; tauto|].
    intros ans' [H|[H|[H|[]]]]; by inversion H.
  - apply (Hmark "vol-3" (Err (ExternalError "volume not found")));
      [simpl; tauto|].
    intros ans' [H|[H|[H|[]]]]; by inversion H.
Defined.

(** ** The device path of a volume *)

Lemma length_append s t :
  String.length (s +:+ t) = (String.length s + String.length t)%nat.
Proof. induction s as [|c s IH]; simpl; [done|by rewrite IH]. Qed.

Lemma substring_all s : String.substring 0 (String.length s) s = s.
Proof. induction s as [|c s IH]; simpl; [done|by rewrite IH]. Qed.

Lemma substring_after_prefix p s :
  String.substring (String.length p) (String.length s) (p +:+ s) = s.
Proof. induction p as [|c p IH]; simpl; [apply substring_all|done]. Qed.

Lemma slice_after_prefix p s :
  slice (p +:+ s) (String.length p) (String.length (p +:+ s)) = Some s.
Proof.
  unfold slice. rewrite length_append.
  rewrite (proj2 (Nat.leb_le _ _)) by lia.
  rewrite (proj2 (Nat.leb_le _ _)) by lia. simpl.
  replace (String.length p + String.length s - String.length p)%nat
    with (String.length s) by lia.
  by rewrite substring_after_prefix.
Qed.

Lemma Contains_length s substr :
  Contains s substr = true -> (String.length substr <= String.length s)%nat.
Proof.
  intros (pre & post & ->)%Contains_spec. rewrite !length_append. lia.
Qed.

Lemma GetDevicePath_scan_cons volumeId f rest :
  GetDevicePath_scan volumeId (f :: rest) =
  if entry_matches volumeId f
  then Ret (path_Join [device_dir; f])
  else GetDevicePath_scan volumeId rest.
Proof.
  unfold entry_matches.
  change (GetDevicePath_scan volumeId (f :: rest)) with
    (if Contains f device_marker then
       match slice f (String.length device_marker) (String.length f) with
       | None => Panic "slice bounds out of range"
       | Some devid_prefix =>
           if Contains volumeId devid_prefix
           then Ret (path_Join [device_dir; f])
           else GetDevicePath_scan volumeId rest
       end
     else GetDevicePath_scan volumeId rest).
  destruct (Contains f device_marker) eqn:Hmarker; [|done].
  apply Contains_length in Hmarker.
  unfold slice at 1 2.
  rewrite (proj2 (Nat.leb_le _ _) Hmarker), Nat.leb_refl.
  rewrite !andb_true_l.
  by destruct (Contains volumeId _).
Qed.

Lemma names_volume_entry_matches volumeId f :
  names_volume volumeId f -> entry_matches volumeId f = true.
Proof.
  intros (suffix & -> & Hsub). unfold entry_matches.
  rewrite slice_after_prefix.
  rewrite HasPrefix_Contains by (apply HasPrefix_spec; by exists suffix).
  by apply Contains_spec.
Qed.

Lemma entry_matches_names_volume volumeId f :
  (Contains f device_marker = true -> HasPrefix f device_marker = true) ->
  entry_matches volumeId f = true -> names_volume volumeId f.
Proof.
  intros Hprefix [Hmarker H]%andb_true_iff.
  destruct (proj1 (HasPrefix_spec _ _) (Hprefix Hmarker)) as [suffix ->].
  rewrite slice_after_prefix in H.
  exists suffix. split; [done|]. by apply Contains_spec.
Qed.

Lemma GetDevicePath_scan_first volumeId before f after :
  (forall g, In g before -> entry_matches volumeId g = false) ->
  entry_matches volumeId f = true ->
  GetDevicePath_scan volumeId (before ++ f :: after) =
  Ret (path_Join [device_dir; f]).
Proof.
  induction before as [|g before IH]; intros Hbefore Hf.
  - change ([] ++ f :: after) with (f :: after).
    by rewrite GetDevicePath_scan_cons, Hf.
  - change ((g :: before) ++ f :: after) with (g :: (before ++ f :: after)).
    rewrite GetDevicePath_scan_cons, (Hbefore g) by (by left).
    apply IH; [|done]. intros h Hh. apply Hbefore. by right.
Qed.

Lemma GetDevicePath_scan_none volumeId files :
  (forall f, In f files -> entry_matches volumeId f = false) ->
  GetDevicePath_scan volumeId files = Ret "".
Proof.
  induction files as [|f files IH]; intros Hnone; [done|].
  rewrite GetDevicePath_scan_cons, (Hnone f) by (by left).
  apply IH. intros g Hg. apply Hnone. by right.
Qed.

(** C8, as amended: over a directory listing in which every entry that
    contains the marker scsi-0DO_Volume_ starts with it, [GetDevicePath]
    returns the directory joined with the name of the first entry, in the
    order of the listing, that is the marker followed by a suffix occurring
    in the queried volume id; when no entry is of this kind it returns
    the empty string. *)
Theorem GetDevicePath_first_entry {St} (w : World St) s do volumeId files :
  fst (read_dir w device_dir s) = Ok files ->
  (forall f, In f files ->
     Contains f device_marker = true -> HasPrefix f device_marker = true) ->
  let r := returned (run w (GetDevicePath do volumeId) s) in
  (forall before f after,
     files = before ++ f :: after ->
     (forall g, In g before -> ~ names_volume volumeId g) ->
     names_volume volumeId f ->
     r = Done (path_Join [device_dir; f])) /\
  ((forall f, In f files -> ~ names_volume volumeId f) -> r = Done "").
Proof.
  intros Hdir Hprefix r. subst r. unfold GetDevicePath.
  cbn [run]. destruct (read_dir w device_dir s) as [ans s'].
  simpl in Hdir. subst ans. cbn [after returned].
  assert (Hno : forall g, In g files -> ~ names_volume volumeId g ->
                          entry_matches volumeId g = false).
  { intros g Hg Hnot. destruct (entry_matches volumeId g) eqn:Hm; [|done].
    destruct Hnot. apply entry_matches_names_volume; [|done].
    by apply Hprefix. }
  split.
  - intros before f after -> Hbefore Hf.
    rewrite GetDevicePath_scan_first; [done| |].
    + intros g Hg. apply Hno; [|by apply Hbefore].
      apply in_or_app. by left.
    + by apply names_volume_entry_matches.
  - intros Hnone. rewrite GetDevicePath_scan_none; [done|].
    intros f Hf. apply Hno; [done|by apply Hnone].
Qed.

Lemma GetDevicePath_first_entry_abc123 :
  returned (run (by_id_world ["ata-QEMU_DVD-ROM_QM00001";
                              "scsi-0DO_Volume_abc123"])
                (GetDevicePath the_provider "vol-abc123-nyc1") tt)
    = Done "/dev/disk/by-id/scsi-0DO_Volume_abc123" /\
  returned (run (by_id_world ["ata-QEMU_DVD-ROM_QM00001"])
                (GetDevicePath the_provider "vol-abc123-nyc1") tt)
    = Done "".
Proof.
  assert (Hata : ~ names_volume "vol-abc123-nyc1" "ata-QEMU_DVD-ROM_QM00001").
  { intros (suffix & H & _). discriminate H. }
  split.
  - apply (proj1 (GetDevicePath_first_entry
                    (by_id_world ["ata-QEMU_DVD-ROM_QM00001";
                                  "scsi-0DO_Volume_abc123"])
                    tt the_provider "vol-abc123-nyc1"
                    ["ata-QEMU_DVD-ROM_QM00001"; "scsi-0DO_Volume_abc123"]
                    eq_refl
                    ltac:(intros f [<-|[<-|[]]]; vm_compute; congruence))
                 ["ata-QEMU_DVD-ROM_QM00001"] "scsi-0DO_Volume_abc123" []
                 eq_refl).
    + intros g [<-|[]]. exact Hata.
    + exists "abc123". split; [reflexivity|].
      exists "vol-", "-nyc1". reflexivity.
  - apply (proj2 (GetDevicePath_first_entry
                    (by_id_world ["ata-QEMU_DVD-ROM_QM00001"])
                    tt the_provider "vol-abc123-nyc1"
                    ["ata-QEMU_DVD-ROM_QM00001"] eq_refl
                    ltac:(intros f [<-|[]]; vm_compute; congruence))).
    intros g [<-|[]]. exact Hata.
Defined.

(** C8, as stated, fails: two entries are the marker followed by a suffix
    occurring in the volume id data1; the path of the first one is
    returned, which is not the path of the entry scsi-0DO_Volume_data1. *)
Lemma GetDevicePath_not_every_entry :
  let files := ["scsi-0DO_Volume_data"; "scsi-0DO_Volume_data1"] in
  In "scsi-0DO_Volume_data1" files /\
  names_volume "data1" "scsi-0DO_Volume_data1" /\
  returned (run (by_id_world files) (GetDevicePath the_provider "data1") tt)
    = Done "/dev/disk/by-id/scsi-0DO_Volume_data" /\
  returned (run (by_id_world files) (GetDevicePath the_provider "data1") tt)
    <> Done (path_Join [device_dir; "scsi-0DO_Volume_data1"]).
Proof.
  simpl. split; [tauto|]. split; [|split].
  - exists "data1". split; [reflexivity|]. by exists "", "".
  - reflexivity.
  - vm_compute. discriminate.
Qed.

(** Outside the listings of C8: the loop asks whether the marker occurs
    anywhere in the entry and then drops the first sixteen bytes of the
    name, so an entry that holds the marker further in is compared by its
    last bytes. *)
Remark GetDevicePath_marker_inside_name :
  HasPrefix "x-scsi-0DO_Volume_" device_marker = false /\
  returned (run (by_id_world ["x-scsi-0DO_Volume_"])
                (GetDevicePath the_provider "volume_1") tt)
    = Done "/dev/disk/by-id/x-scsi-0DO_Volume_".
Proof. split; reflexivity. Qed.

(** * Further results *)

(** ** The helper [min] *)

(** X1: [min] returns the smaller of its arguments. *)
Theorem min_spec (a b : Z) :
  min a b <= a /\ min a b <= b /\ (min a b = a \/ min a b = b).
Proof. unfold min. destruct (Z.ltb_spec a b); lia. Qed.

(** ** Registration and construction *)

(** X2: The registered factory returns the error of [readConfig], which for a
    nil reader is the no-config error, without a single call to a
    collaborator; with a config read without error it goes on as
    [newDigitalOcean]. *)
Theorem init_factory_config_error {St} (w : World St) s ReadInto :
  run w (init_factory ReadInto None) s =
    {| returned := Done (Err (ErrorString no_config_msg));
       final := s; calls := [] |} /\
  (forall text cfg err,
     ReadInto text = (cfg, Some err) ->
     run w (init_factory ReadInto (Some text)) s =
       {| returned := Done (Err err); final := s; calls := [] |}) /\
  (forall text cfg,
     ReadInto text = (cfg, None) ->
     run w (init_factory ReadInto (Some text)) s =
     run w (newDigitalOcean cfg) s).
Proof.
  split; [done|]. unfold init_factory, readConfig.
  split; intros text cfg; [intros err|]; intros ->; done.
Qed.

Lemma init_factory_config_error_sample :
  run unreachable_world (init_factory sample_ReadInto (Some "[Global]")) tt =
    {| returned := Done (Err (ExternalError "parse error"));
       final := tt; calls := [] |} /\
  run unreachable_world
      (init_factory sample_ReadInto
                    (Some "[Global] Region = nyc1 ApiKey = 123456")) tt =
  run unreachable_world (newDigitalOcean sample_config) tt.
Proof.
  destruct (init_factory_config_error unreachable_world tt sample_ReadInto)
    as (_ & Herr & Hok).
  split.
  - apply (Herr "[Global]" empty_Config). reflexivity.
  - apply (Hok "[Global] Region = nyc1 ApiKey = 123456"). reflexivity.
Defined.

(** X3: [newDigitalOcean] checks the account first and stops at the first
    failure: the metadata service is not asked when the account check
    fails, the id is not asked for when the region cannot be fetched, and
    the error met is returned as it is.  The errors of reading the two
    bodies do not count.  On success the provider carries the token and
    the region of the config. *)
Theorem newDigitalOcean_fail_fast {St} (w : World St) s cfg :
  let '(acct, s1) := account_get w s in
  let '(region, s2) := http_get w metadata_region_url s1 in
  let '(id, s3) := http_get w metadata_id_url s2 in
  let r := run w (newDigitalOcean cfg) s in
  match acct with
  | Some err =>
      returned r = Done (Err err) /\ calls r = [EvAccountGet acct]
  | None =>
      match region with
      | Err err =>
          returned r = Done (Err err) /\
          calls r = [EvAccountGet acct; EvHttpGet metadata_region_url region]
      | Ok _ =>
          calls r = [EvAccountGet acct; EvHttpGet metadata_region_url region;
                     EvHttpGet metadata_id_url id] /\
          match id with
          | Err err => returned r = Done (Err err)
          | Ok resp =>
              match snd (Atoi (fst (Response.Body resp))) with
              | Some err => returned r = Done (Err err)
              | None =>
                  returned r =
                  Done (Ok {| DigitalOcean.provider :=
                                {| TokenSource.AccessToken :=
                                     Config.ApiKey (Config.Global cfg) |};
                              DigitalOcean.region :=
                                Config.Region (Config.Global cfg);
                              DigitalOcean.selfDOInstance := None |})
              end
          end
      end
  end.
Proof.
  unfold newDigitalOcean. simpl.
  destruct (account_get w s) as [[err|] s1]; simpl.
  { by destruct (http_get w metadata_region_url s1) as [region s2],
               (http_get w metadata_id_url s2) as [id s3]. }
  destruct (http_get w metadata_region_url s1) as [[resp|err] s2]; simpl.
  2: { by destruct (http_get w metadata_id_url s2) as [id s3]. }
  destruct (Response.Body resp) as [dropletRegion e1]; simpl.
  destruct (http_get w metadata_id_url s2) as [[resp'|err] s3]; simpl; [|done].
  destruct (Response.Body resp') as [dropletID e2]; simpl.
  by destruct (Atoi dropletID) as [intDropletID [err|]].
Qed.

(** X4: A provider returned by [newDigitalOcean] reports the region of the
    config, whatever region the metadata service answered. *)
Theorem GetRegion_after_newDigitalOcean {St} (w : World St) s cfg do :
  returned (run w (newDigitalOcean cfg) s) = Done (Ok do) ->
  GetRegion do = Config.Region (Config.Global cfg).
Proof. intros H. apply newDigitalOcean_returns in H. by subst do. Qed.

Lemma GetRegion_after_newDigitalOcean_sample :
  GetRegion the_provider = "nyc1".
Proof.
  apply (GetRegion_after_newDigitalOcean
           (fixed_world (Ok []) no_volume (Ok []) sample_metadata)
           tt sample_config the_provider).
  reflexivity.
Defined.

(** X5: [GetZone] reads the self instance: on a provider that holds one it
    returns its region as failure domain and as region; on a provider
    returned by [newDigitalOcean], which holds none, it panics. *)
Theorem GetZone_self_instance {St} (w : World St) s s' cfg :
  (forall do self,
     DigitalOcean.selfDOInstance do = Some self ->
     returned (run w (GetZone do) s') =
     Done ({| Zone.FailureDomain := doInstance.region self;
              Zone.Region := doInstance.region self |}, None)) /\
  (forall do,
     returned (run w (newDigitalOcean cfg) s) = Done (Ok do) ->
     returned (run w (GetZone do) s') = Panicked nil_dereference).
Proof.
  split.
  - intros do self H. unfold GetZone. by rewrite H.
  - intros do H. apply newDigitalOcean_returns in H. by subst do.
Qed.

Lemma GetZone_self_instance_sample :
  returned (run (fixed_world (Ok []) no_volume (Ok []) sample_metadata)
                (GetZone the_provider) tt) = Panicked nil_dereference.
Proof.
  apply (proj2 (GetZone_self_instance
                  (fixed_world (Ok []) no_volume (Ok []) sample_metadata)
                  tt tt sample_config) the_provider).
  reflexivity.
Defined.

(** ** Decimal droplet ids *)

Ltac eval_digit :=
  match goal with
  | |- context [digit_value ?c] =>
      let v := eval vm_compute in (digit_value c) in
      change (digit_value c) with v; cbv iota beta
  end.

Lemma of_uint_acc_ge d acc : (acc <= Pos.of_uint_acc d acc)%positive.
Proof.
  revert acc.
  induction d as [|d IH|d IH|d IH|d IH|d IH|d IH|d IH|d IH|d IH|d IH];
    intros acc; cbn [Pos.of_uint_acc]; [lia|..];
    match goal with
    | |- (_ <= Pos.of_uint_acc d ?a)%positive => specialize (IH a)
    end; lia.
Qed.

Lemma parse_digits_of_uint_acc d acc :
  Zpos (Pos.of_uint_acc d acc) <= maxUint64 ->
  parse_digits (NilEmpty.string_of_uint d) (Zpos acc)
  = DigitsOk (Zpos (Pos.of_uint_acc d acc)).
Proof.
  revert acc.
  induction d as [|d IH|d IH|d IH|d IH|d IH|d IH|d IH|d IH|d IH|d IH];
    intros acc Hmax; [reflexivity|..];
    cbn [NilEmpty.string_of_uint parse_digits Pos.of_uint_acc] in *;
    eval_digit;
    match type of Hmax with
    | Zpos (Pos.of_uint_acc d ?a) <= _ =>
        pose proof (of_uint_acc_ge d a) as Hge
    end;
    change (maxUint64 / 10 + 1) with 1844674407370955162;
    change maxUint64 with 18446744073709551615 in *;
    rewrite (proj2 (Z.leb_gt _ _)) by lia; cbv zeta;
    rewrite (proj2 (Z.ltb_ge _ _)) by lia;
    rewrite <- (IH _ Hmax); f_equal; lia.
Qed.

Lemma parse_digits_of_uint d :
  Z.of_N (Pos.of_uint d) <= maxUint64 ->
  parse_digits (NilEmpty.string_of_uint d) 0
  = DigitsOk (Z.of_N (Pos.of_uint d)).
Proof.
  induction d as [|d IH|d IH|d IH|d IH|d IH|d IH|d IH|d IH|d IH|d IH];
    intros Hmax; [reflexivity|..];
    cbn [NilEmpty.string_of_uint parse_digits Pos.of_uint] in *;
    eval_digit;
    change (maxUint64 / 10 + 1 <=? 0) with false; cbv iota zeta;
    change (0 * 10 + ?k) with k;
    [change (maxUint64 <? 0) with false; cbv iota; by apply IH|..];
    cbn [Z.of_N] in Hmax;
    match type of Hmax with
    | Zpos (Pos.of_uint_acc d ?a) <= _ =>
        pose proof (of_uint_acc_ge d a) as Hge
    end;
    (rewrite (proj2 (Z.ltb_ge _ _))
       by (change maxUint64 with 18446744073709551615 in *; lia));
    by apply parse_digits_of_uint_acc.
Qed.

Lemma parse_digits_to_uint p :
  Zpos p <= maxUint64 ->
  parse_digits (NilEmpty.string_of_uint (Pos.to_uint p)) 0 = DigitsOk (Zpos p).
Proof.
  intros Hmax.
  rewrite parse_digits_of_uint; by rewrite DecimalPos.Unsigned.of_to.
Qed.

(** The decimal rendering of a positive number starts with a digit. *)
Lemma string_of_to_uint p :
  exists c rest,
    NilEmpty.string_of_uint (Pos.to_uint p) = String c rest /\
    NilZero.string_of_uint (Pos.to_uint p) = String c rest /\
    Ascii.eqb c "-" = false /\ Ascii.eqb c "+" = false.
Proof.
  pose proof (DecimalPos.Unsigned.to_uint_nonnil p) as Hnil.
  destruct (Pos.to_uint p) as [|d|d|d|d|d|d|d|d|d|d]; [done|..];
    eexists _, _; by repeat split.
Qed.

(** [Atoi] reads back what [Itoa] writes, for every value of an [int]. *)
Lemma Atoi_Itoa i : minInt <= i <= maxInt -> Atoi (Itoa i) = (i, None).
Proof.
  intros Hrange. unfold Itoa. destruct i as [|p|p]; [reflexivity|..];
    cbn [Z.to_int NilZero.string_of_int];
    (assert (Hmax : Zpos p <= maxUint64)
       by (revert Hrange; unfold minInt, maxInt, maxUint64; lia));
    pose proof (parse_digits_to_uint p Hmax) as Hparse;
    destruct (string_of_to_uint p) as (c & rest & Hne & Hnz & Hminus & Hplus);
    rewrite Hnz; rewrite Hne in Hparse; unfold Atoi.
  - rewrite Hminus, Hplus. cbn [orb negb andb]. cbv zeta. rewrite Hparse.
    rewrite (proj2 (Z.leb_gt _ _))
      by (revert Hrange; unfold maxInt; lia).
    reflexivity.
  - change (Ascii.eqb "-" "-") with true. cbn [orb negb andb]. cbv zeta.
    rewrite Hparse.
    rewrite (proj2 (Z.ltb_ge _ _))
      by (revert Hrange; unfold minInt; lia).
    reflexivity.
Qed.

Lemma Itoa_inj a b : Itoa a = Itoa b -> a = b.
Proof.
  unfold Itoa. intros H. apply DecimalZ.to_int_inj.
  assert (Hnil : forall z, Z.to_int z <> Decimal.Pos Decimal.Nil /\
                           Z.to_int z <> Decimal.Neg Decimal.Nil).
  { intros [|p|p]; split; try discriminate; simpl; intros Hp;
      injection Hp as Hp; by apply DecimalPos.Unsigned.to_uint_nonnil in Hp. }
  destruct (Hnil a) as [Ha1 Ha2], (Hnil b) as [Hb1 Hb2].
  pose proof (NilZero.isi _ Ha1 Ha2) as Ha.
  rewrite H, (NilZero.isi _ Hb1 Hb2) in Ha. by injection Ha.
Qed.

(** X6: When the metadata service answers the decimal rendering of an [int]
    as the droplet id, [buildSelfDOInstance] on a provider without self
    instance returns that number with the region answered, and
    [LocalInstanceID] on a provider holding this instance returns the
    answer of the metadata service, byte for byte. *)
Theorem self_instance_round_trip {St} (w : World St) s s1 s2 do
    (dropletID : Z) (dropletRegion : string) e1 e2 :
  DigitalOcean.selfDOInstance do = None ->
  minInt <= dropletID <= maxInt ->
  http_get w metadata_region_url s
    = (Ok {| Response.Body := (dropletRegion, e1) |}, s1) ->
  http_get w metadata_id_url s1
    = (Ok {| Response.Body := (Itoa dropletID, e2) |}, s2) ->
  let self := {| doInstance.dropletID := dropletID;
                 doInstance.region := dropletRegion |} in
  returned (run w (buildSelfDOInstance do) s) = Done (Ok self) /\
  forall s',
    returned (run w (LocalInstanceID
                       {| DigitalOcean.provider := DigitalOcean.provider do;
                          DigitalOcean.region := DigitalOcean.region do;
                          DigitalOcean.selfDOInstance := Some self |}) s')
    = Done (Itoa dropletID, None).
Proof.
  intros Hnil Hrange Hregion Hid self. split; [|done].
  unfold buildSelfDOInstance. rewrite Hnil. cbn [run].
  rewrite Hregion. cbn [Response.Body run]. rewrite Hid.
  cbn [Response.Body]. by rewrite (Atoi_Itoa _ Hrange).
Qed.

Lemma self_instance_round_trip_12345 :
  returned (run (fixed_world (Ok []) no_volume (Ok []) sample_metadata)
                (buildSelfDOInstance the_provider) tt)
    = Done (Ok {| doInstance.dropletID := 12345;
                  doInstance.region := "nyc1" |}).
Proof.
  apply (self_instance_round_trip
           (fixed_world (Ok []) no_volume (Ok []) sample_metadata)
           tt tt tt the_provider 12345 "nyc1" None None);
    [reflexivity|vm_compute; split; discriminate|reflexivity|reflexivity].
Defined.

(** ** What a lookup returns *)

Lemma findDroplet_scan_sound {U : Unicode} name droplets d :
  findDroplet_scan name droplets = Ok d ->
  exists before after,
    droplets = before ++ d :: after /\
    identifies name d = true /\
    forall x, In x before -> identifies name x = false.
Proof.
  induction droplets as [|x droplets IH]; [discriminate|].
  rewrite findDroplet_scan_step.
  destruct (identifies name x) eqn:Hx.
  - intros H. inversion H; subst x. by exists [], droplets.
  - intros H. destruct (IH H) as (before & after & -> & Hd & Hbefore).
    exists (x :: before), after. split; [done|]. split; [done|].
    intros y [<-|Hy]; [done|by apply Hbefore].
Qed.

Lemma findDroplet_scan_error {U : Unicode} name droplets e :
  findDroplet_scan name droplets = Err e ->
  e = ErrNotFound /\ forall x, In x droplets -> identifies name x = false.
Proof.
  induction droplets as [|x droplets IH].
  - intros H. inversion H. by split.
  - rewrite findDroplet_scan_step.
    destruct (identifies name x) eqn:Hx; [discriminate|].
    intros H. destruct (IH H) as [-> Hnone]. split; [done|].
    intros y [<-|Hy]; [done|by apply Hnone].
Qed.

(** X7: [findDroplet] always returns.  A droplet it returns is in the
    listing, matches the query by one of the three keys, and has no
    matching droplet before it; an error it returns is the error of the
    listing call or, over a listing without any matching droplet,
    [ErrNotFound]. *)
Theorem findDroplet_sound {U : Unicode} {St} (w : World St) s do name :
  let listing := fst (droplets_list w listOptions s) in
  let r := returned (run w (findDroplet do name) s) in
  (exists out, r = Done out) /\
  (forall d,
     r = Done (Ok d) ->
     exists before after,
       listing = Ok (before ++ d :: after) /\
       identifies name d = true /\
       forall x, In x before -> identifies name x = false) /\
  (forall e,
     r = Done (Err e) ->
     listing = Err e \/
     e = ErrNotFound /\
     exists droplets,
       listing = Ok droplets /\
       forall x, In x droplets -> identifies name x = false).
Proof.
  intros listing r. subst listing r. rewrite findDroplet_run.
  destruct (droplets_list w listOptions s) as [[droplets|err] s']; simpl.
  - split; [by eexists|]. split.
    + intros d H. inversion H as [Hscan].
      destruct (findDroplet_scan_sound _ _ _ Hscan)
        as (before & after & -> & Hd & Hbefore).
      by exists before, after.
    + intros e H. inversion H as [Hscan]. right.
      destruct (findDroplet_scan_error _ _ _ Hscan) as [-> Hnone].
      split; [done|]. by exists droplets.
  - split; [by eexists|]. split; [discriminate|].
    intros e H. left. by inversion H.
Qed.

Lemma findDroplet_sound_two_nodes :
  exists before after,
    fst (droplets_list two_nodes_world listOptions tt)
      = Ok (before ++ node_b :: after) /\
    identifies (U := ascii_text) "10.0.0.2" node_b = true /\
    forall x, In x before -> identifies (U := ascii_text) "10.0.0.2" x = false.
Proof.
  apply (proj1 (proj2 (findDroplet_sound (U := ascii_text) two_nodes_world tt
      the_provider
                         "10.0.0.2")) node_b).
  reflexivity.
Defined.

(** ** One listing call per lookup *)

(** A method that starts with [findDroplet] and then only computes. *)
Lemma findDroplet_then_pure {U : Unicode} {St A} (w : World St) s do name
    (f : result Droplet.t -> Prog A) :
  (forall r s', calls (run w (f r) s') = [] /\ final (run w (f r) s') = s') ->
  calls (run w (bind (findDroplet do name) f) s)
    = [EvDropletsList listOptions (fst (droplets_list w listOptions s))] /\
  final (run w (bind (findDroplet do name) f) s)
    = snd (droplets_list w listOptions s).
Proof.
  intros Hpure. rewrite run_bind, findDroplet_run.
  destruct (droplets_list w listOptions s) as [ans s']. simpl.
  by destruct (Hpure
                 (match ans with
                  | Ok droplets => findDroplet_scan name droplets
                  | Err err => Err err
                  end) s') as [-> ->].
Qed.

(** X8: Every lookup method of the capability surface makes exactly one call:
    the listing of droplets with page 1 and 200 entries per page.  It
    never asks for another page, and nothing is kept from one lookup to
    the next. *)
Theorem lookups_list_once {U : Unicode} {St} (w : World St) s do name :
  let once (A : Type) (p : Prog A) :=
    calls (run w p s)
      = [EvDropletsList {| ListOptions.Page := 1; ListOptions.PerPage := 200 |}
                        (fst (droplets_list w listOptions s))] /\
    final (run w p s) = snd (droplets_list w listOptions s) in
  once _ (findDroplet do name) /\
  once _ (NodeAddresses do name) /\
  once _ (ExternalID do name) /\
  once _ (InstanceID do name) /\
  once _ (InstanceType do name) /\
  once _ (CurrentNodeName do name) /\
  once _ (findDropletByFilter do name) /\
  once _ (List do name).
Proof.
  cbv zeta. change {| ListOptions.Page := 1; ListOptions.PerPage := 200 |}
    with listOptions.
  split; [|split; [|split; [|split; [|split; [|split; [|split]]]]]].
  - rewrite findDroplet_run. by destruct (droplets_list w listOptions s).
  - apply findDroplet_then_pure. intros [d|e] s'; [|done].
    destruct (Droplet.PrivateIPv4 d) as [ip1 [e1|]]; [done|].
    by destruct (Droplet.PublicIPv4 d) as [ip2 [e2|]].
  - apply findDroplet_then_pure. by intros [d|e] s'.
  - apply findDroplet_then_pure. by intros [d|e] s'.
  - apply findDroplet_then_pure. intros [d|e] s'; [|done].
    by destruct (Droplet.Size d).
  - apply findDroplet_then_pure. by intros [d|e] s'.
  - unfold findDropletByFilter. simpl.
    by destruct (droplets_list w listOptions s) as [[droplets|err] s'].
  - unfold List, findDropletByFilter. simpl.
    by destruct (droplets_list w listOptions s) as [[droplets|err] s'].
Qed.

(** ** External ids and node names *)

(** X9: When the lookup finds a droplet, [ExternalID] and [InstanceID] return
    the decimal rendering of its numeric id; two nodes get the same
    external id only when their droplets have the same numeric id. *)
Theorem ExternalID_decimal_id {U : Unicode} {St} (w : World St) s s' do name
    name' d d' :
  returned (run w (findDroplet do name) s) = Done (Ok d) ->
  returned (run w (findDroplet do name') s') = Done (Ok d') ->
  returned (run w (ExternalID do name) s) = Done (Itoa (Droplet.ID d), None) /\
  returned (run w (InstanceID do name) s) = Done (Itoa (Droplet.ID d), None) /\
  (returned (run w (ExternalID do name) s)
     = returned (run w (ExternalID do name') s') ->
   Droplet.ID d = Droplet.ID d').
Proof.
  intros H H'. unfold ExternalID, InstanceID.
  rewrite !(after_findDroplet _ _ _ _ _ _ H).
  rewrite (after_findDroplet _ _ _ _ _ _ H'). simpl.
  split; [done|]. split; [done|].
  intros Heq. apply Itoa_inj. by inversion Heq.
Qed.

Lemma ExternalID_decimal_id_web1 :
  returned (run web1_world (ExternalID (U := ascii_text) the_provider
      "10.0.0.5") tt)
    = Done ("101", None) /\
  returned (run web1_world (InstanceID (U := ascii_text) the_provider
      "10.0.0.5") tt)
    = Done ("101", None).
Proof.
  destruct (ExternalID_decimal_id (U := ascii_text) web1_world tt tt
      the_provider
              "10.0.0.5" "web-1" web1 web1 eq_refl eq_refl)
    as (H1 & H2 & _).
  split; [exact H1|exact H2].
Defined.

Lemma lower_byte_idem c : lower_byte (lower_byte c) = lower_byte c.
Proof. destruct c as [[] [] [] [] [] [] [] []]; reflexivity. Qed.

Lemma lower_byte_ascii c :
  (N_of_ascii (lower_byte c) <? 128)%N = (N_of_ascii c <? 128)%N.
Proof. destruct c as [[] [] [] [] [] [] [] []]; reflexivity. Qed.

Lemma lower_ascii_idem s : lower_ascii (lower_ascii s) = lower_ascii s.
Proof.
  induction s as [|c s IH]; simpl; [done|]. by rewrite lower_byte_idem, IH.
Qed.

Lemma isASCII_lower_ascii s : isASCII (lower_ascii s) = isASCII s.
Proof.
  induction s as [|c s IH]; simpl; [done|]. by rewrite lower_byte_ascii, IH.
Qed.

(** On ASCII text [ToLower] is idempotent, whatever the Unicode tables. *)
Lemma ToLower_idem_ascii {U : Unicode} s :
  isASCII s = true -> ToLower (ToLower s) = ToLower s.
Proof.
  intros Hs. unfold ToLower. rewrite Hs, isASCII_lower_ascii, Hs.
  apply lower_ascii_idem.
Qed.

(** X10: Over a listing on whose names lower-casing is idempotent (as it
    is on every ASCII name), the node name that [CurrentNodeName] returns
    is in lower case, and a lookup of this name over the same listing
    finds a droplet: [InstanceID] on it does not fail. *)
Theorem CurrentNodeName_resolves
    {U : Unicode} {St} (w : World St) s s' do hostname droplets nodeName :
  fst (droplets_list w listOptions s) = Ok droplets ->
  fst (droplets_list w listOptions s') = Ok droplets ->
  (forall d, In d droplets ->
     ToLower (ToLower (Droplet.Name d)) = ToLower (Droplet.Name d)) ->
  returned (run w (CurrentNodeName do hostname) s) = Done (nodeName, None) ->
  ToLower nodeName = nodeName /\
  exists d,
    returned (run w (findDroplet do nodeName) s') = Done (Ok d) /\
    returned (run w (InstanceID do nodeName) s')
      = Done (Itoa (Droplet.ID d), None).
Proof.
  intros Hs Hs' Hidem. unfold CurrentNodeName, InstanceID.
  rewrite !run_bind, !findDroplet_run.
  destruct (droplets_list w listOptions s) as [ans s1]. simpl in Hs.
  destruct (droplets_list w listOptions s') as [ans' s1']. simpl in Hs'.
  subst ans ans'. simpl.
  destruct (findDroplet_scan hostname droplets) as [d|e] eqn:Hscan;
    simpl; [|discriminate].
  intros H. inversion H; subst nodeName. clear H.
  apply findDroplet_scan_sound in Hscan
    as (before & behind & -> & _ & _).
  assert (Hd : ToLower (ToLower (Droplet.Name d)) = ToLower (Droplet.Name d))
    by (apply Hidem, in_or_app; right; by left).
  split; [exact Hd|].
  destruct (findDroplet_scan (ToLower (Droplet.Name d))
              (before ++ d :: behind)) as [d'|e] eqn:Hscan'.
  - by exists d'.
  - apply findDroplet_scan_error in Hscan' as [_ Hnone].
    assert (Hnot : identifies (ToLower (Droplet.Name d)) d = false).
    { apply Hnone, in_or_app. right. by left. }
    unfold identifies, name_matches in Hnot.
    by rewrite Hd, String.eqb_refl in Hnot.
Qed.

Lemma CurrentNodeName_resolves_web1 :
  ToLower (U := ascii_text) "web-1" = "web-1" /\
  exists d,
    returned (run web1_world
                (findDroplet (U := ascii_text) the_provider "web-1") tt)
      = Done (Ok d) /\
    returned (run web1_world
                (InstanceID (U := ascii_text) the_provider "web-1") tt)
      = Done (Itoa (Droplet.ID d), None).
Proof.
  apply (CurrentNodeName_resolves (U := ascii_text) web1_world tt tt
           the_provider "10.0.0.5" [web1] "web-1"); try reflexivity.
  intros d [<-|[]]. reflexivity.
Defined.

(** ** Listing by name, further *)

Lemma Contains_empty s : Contains s "" = true.
Proof. by rewrite Contains_unfold. Qed.

Lemma append_assoc (a b c : string) : (a +:+ b) +:+ c = a +:+ b +:+ c.
Proof.
  induction a as [|x a IH]; [done|].
  change (String x ((a +:+ b) +:+ c) = String x (a +:+ b +:+ c)).
  by rewrite IH.
Qed.

Lemma Contains_trans s t u :
  Contains s t = true -> Contains t u = true -> Contains s u = true.
Proof.
  intros (pre & post & ->)%Contains_spec (pre' & post' & ->)%Contains_spec.
  apply Contains_spec. exists (pre +:+ pre'), (post' +:+ post).
  by rewrite !append_assoc.
Qed.

(** X12: [List] turns every error of the listing into [InstanceNotFound] and
    otherwise returns the names chosen by the filter; the empty filter
    chooses every droplet of the listing. *)
Theorem List_spec {St} (w : World St) s do filter :
  let listing := fst (droplets_list w listOptions s) in
  (forall err,
     listing = Err err ->
     returned (run w (List do filter) s) = Done ([], Some InstanceNotFound)) /\
  (forall droplets,
     listing = Ok droplets ->
     returned (run w (List do filter) s)
       = Done (List.map Droplet.Name
                 (List.filter (fun d => Contains (Droplet.Name d) filter)
                              droplets), None) /\
     returned (run w (List do "") s)
       = Done (List.map Droplet.Name droplets, None)).
Proof.
  intros listing. subst listing. unfold List, findDropletByFilter. simpl.
  destruct (droplets_list w listOptions s) as [[droplets|err] s']; simpl.
  - split; [discriminate|]. intros ds H. inversion H; subst ds.
    rewrite !findDropletByFilter_scan_filter. simpl.
    split; f_equal; f_equal.
    + clear. induction droplets as [|d droplets IH]; simpl; [done|].
      destruct (Contains (Droplet.Name d) filter); simpl; by rewrite IH.
    + clear. induction droplets as [|d droplets IH]; simpl; [done|].
      by rewrite Contains_empty, IH.
  - split; [done|discriminate].
Qed.

Lemma List_spec_api_db :
  returned (run api_db_world (List the_provider "api-2") tt)
    = Done (["api-2"], None) /\
  returned (run api_db_world (List the_provider "") tt)
    = Done (["api-1"; "api-2"; "db-1"], None).
Proof.
  apply (proj2 (List_spec api_db_world tt the_provider "api-2")
               [named "api-1"; named "api-2"; named "db-1"]).
  reflexivity.
Defined.

Lemma filter_names_sublist (P Q : string -> bool) names :
  (forall n, Q n = true -> P n = true) ->
  sublist (List.filter Q names) (List.filter P names).
Proof.
  intros HQP. induction names as [|n names IH]; simpl; [constructor|].
  destruct (Q n) eqn:HQ.
  - rewrite (HQP n HQ). by constructor.
  - destruct (P n); [by constructor|done].
Qed.

(** X13: A longer filter chooses less: when [filter] occurs in [filter'], the
    names found for [filter'] are among the names found for [filter],
    in the same order. *)
Theorem findDropletByFilter_narrowing
    {St} (w : World St) s do filter filter' droplets names names' :
  fst (droplets_list w listOptions s) = Ok droplets ->
  Contains filter' filter = true ->
  returned (run w (findDropletByFilter do filter) s) = Done (names, None) ->
  returned (run w (findDropletByFilter do filter') s) = Done (names', None) ->
  sublist names' names.
Proof.
  intros Hlist Hsub. unfold findDropletByFilter. simpl.
  destruct (droplets_list w listOptions s) as [ans s']. simpl in Hlist.
  subst ans. simpl. rewrite !findDropletByFilter_scan_filter. simpl.
  intros H H'. inversion H; inversion H'; subst.
  apply filter_names_sublist. intros n Hn. by apply (Contains_trans n filter').
Qed.

Lemma findDropletByFilter_narrowing_api :
  sublist ["api-2"] ["api-1"; "api-2"].
Proof.
  apply (findDropletByFilter_narrowing api_db_world tt the_provider
           "api" "api-2" [named "api-1"; named "api-2"; named "db-1"]);
    reflexivity.
Defined.

(** ** Attachment of one volume *)

Lemma scan_attached_spec instanceID dropletIDs :
  scan_attached instanceID dropletIDs = bool_decide (instanceID ∈ dropletIDs).
Proof.
  unfold scan_attached.
  assert (H : forall acc,
    fold_left (fun attached i => if i =? instanceID then true else attached)
              dropletIDs acc
    = acc || bool_decide (instanceID ∈ dropletIDs)).
  { induction dropletIDs as [|i ids IH]; intros acc; simpl.
    - by rewrite orb_false_r.
    - rewrite IH. destruct (Z.eqb_spec i instanceID) as [->|Hne].
      + rewrite (bool_decide_eq_true_2 (instanceID ∈ instanceID :: ids))
          by apply list_elem_of_here.
        by rewrite orb_true_r.
      + f_equal. apply bool_decide_ext. rewrite elem_of_cons.
        split; [by right|]. by intros [->|H]. }
  by rewrite H.
Qed.

Lemma DiskIsAttached_run {St} (w : World St) s do volumeID instanceID :
  run w (DiskIsAttached do volumeID instanceID) s =
  let '(ans, s') := storage_get_volume w volumeID s in
  {| returned :=
       Done (match ans with
             | Err err => (false, Some err)
             | Ok volume =>
                 (bool_decide (instanceID ∈ Volume.DropletIDs volume), None)
             end);
     final := s';
     calls := [EvStorageGetVolume volumeID ans] |}.
Proof.
  unfold DiskIsAttached, getVolume. simpl.
  destruct (storage_get_volume w volumeID s) as [[volume|err] s']; simpl;
    [|done].
  destruct (Volume.DropletIDs volume) as [|i ids] eqn:Hids; simpl; [done|].
  by rewrite (scan_attached_spec instanceID (i :: ids)).
Qed.

Lemma GetAttachmentVolumePath_returned
    {St} (w : World St) s do instanceID volumeID :
  returned (run w (GetAttachmentVolumePath do instanceID volumeID) s) =
  Done (match fst (storage_get_volume w volumeID s) with
        | Err err => ("", Some err)
        | Ok volume =>
            if bool_decide (instanceID ∈ Volume.DropletIDs volume)
            then ("/dev/disk/by-id/scsi-0DO_Volume_" +:+ Volume.Name volume,
                  None)
            else ("", Some (ErrorString
                              (not_attached_msg volumeID instanceID)))
        end).
Proof.
  unfold GetAttachmentVolumePath, getVolume. simpl.
  destruct (storage_get_volume w volumeID s) as [[volume|err] s']; simpl;
    [|done].
  destruct (Volume.DropletIDs volume) as [|i ids]; simpl; [done|].
  rewrite (scan_attached_spec instanceID (i :: ids)).
  by destruct (bool_decide (instanceID ∈ i :: ids)).
Qed.

(** X14: [DiskIsAttached] looks the volume up once.  When the lookup fails
    it returns false with the error of the lookup; otherwise it returns,
    without error, whether the instance is in the attachment set of the
    volume (false for an empty set). *)
Theorem DiskIsAttached_spec {St} (w : World St) s do volumeID instanceID :
  let ans := fst (storage_get_volume w volumeID s) in
  let r := run w (DiskIsAttached do volumeID instanceID) s in
  calls r = [EvStorageGetVolume volumeID ans] /\
  match ans with
  | Err err => returned r = Done (false, Some err)
  | Ok volume =>
      returned r =
      Done (bool_decide (instanceID ∈ Volume.DropletIDs volume), None)
  end.
Proof.
  cbv zeta. rewrite DiskIsAttached_run.
  by destruct (storage_get_volume w volumeID s) as [[volume|err] s'].
Qed.

(** X15: On a single volume the batch query agrees with the single query: its
    map has the one entry that [DiskIsAttached] answers; the difference
    is the error of a failed lookup, which the batch query drops. *)
Theorem DisksAreAttached_single {St} (w : World St) s do volumeID instanceID
    (attached : bool) err :
  returned (run w (DiskIsAttached do volumeID instanceID) s)
    = Done (attached, err) ->
  returned (run w (DisksAreAttached do [volumeID] instanceID) s)
    = Done ({[ volumeID := attached ]}, None).
Proof.
  rewrite DiskIsAttached_run. unfold DisksAreAttached, getVolume. simpl.
  destruct (storage_get_volume w volumeID s) as [[volume|e] s']; simpl;
    intros H; inversion H; subst; clear H.
  - rewrite mark_attached_spec. case_bool_decide; [|by rewrite insert_empty].
    by rewrite insert_insert_eq, insert_empty.
  - by rewrite insert_empty.
Qed.

Lemma DisksAreAttached_single_vol1 :
  returned (run volumes_world (DisksAreAttached the_provider ["vol-1"] 101) tt)
    = Done ({[ "vol-1" := true ]}, None) /\
  returned (run volumes_world (DisksAreAttached the_provider ["vol-3"] 101) tt)
    = Done ({[ "vol-3" := false ]}, None).
Proof.
  split.
  - apply (DisksAreAttached_single volumes_world tt the_provider "vol-1" 101
             true None).
    reflexivity.
  - apply (DisksAreAttached_single volumes_world tt the_provider "vol-3" 101
             false (Some (ExternalError "volume not found"))).
    reflexivity.
Defined.

(** X16: [GetAttachmentVolumePath] returns a path exactly when
    [DiskIsAttached] answers true: the path is the device directory, the
    marker and the name of the volume.  When the lookup fails it returns
    the error of the lookup, and when the instance is not attached, an
    error that names the volume id and the instance id. *)
Theorem GetAttachmentVolumePath_spec
    {St} (w : World St) s do instanceID volumeID :
  let ans := fst (storage_get_volume w volumeID s) in
  let single := returned (run w (DiskIsAttached do volumeID instanceID) s) in
  let r := returned (run w (GetAttachmentVolumePath do instanceID volumeID) s) in
  match ans with
  | Err err => single = Done (false, Some err) /\ r = Done ("", Some err)
  | Ok volume =>
      (single = Done (true, None) /\
       r = Done ("/dev/disk/by-id/scsi-0DO_Volume_" +:+ Volume.Name volume,
                 None))
      \/
      (single = Done (false, None) /\
       r = Done ("", Some (ErrorString
                             ("volume " +:+ volumeID +:+
                              " is not attached to " +:+ Itoa instanceID))))
  end.
Proof.
  cbv zeta. rewrite GetAttachmentVolumePath_returned, DiskIsAttached_run.
  destruct (storage_get_volume w volumeID s) as [[volume|err] s']; simpl;
    [|done].
  destruct (bool_decide (instanceID ∈ Volume.DropletIDs volume));
    [by left|by right].
Qed.

(** ** The device path, again *)

Lemma GetDevicePath_scan_result volumeId files :
  exists path,
    GetDevicePath_scan volumeId files = Ret path /\
    (path = "" \/
     exists f, In f files /\ entry_matches volumeId f = true /\
               path = path_Join [device_dir; f]).
Proof.
  induction files as [|f files IH].
  - exists "". by split; [|left].
  - rewrite GetDevicePath_scan_cons.
    destruct (entry_matches volumeId f) eqn:Hf.
    + eexists. split; [done|]. right. exists f. split; [by left|done].
    + destruct IH as (path & -> & [->|(g & Hg & Hm & ->)]).
      * exists "". by split; [|left].
      * eexists. split; [done|]. right. exists g. split; [by right|done].
Qed.

(** X17: [GetDevicePath] reads the device directory once and always returns:
    the slice it takes of an entry name is in bounds.  When the directory
    cannot be read the result is the empty string.  Any other result is
    the directory joined with the name of an entry that contains the
    marker and whose bytes from the sixteenth on occur in the volume
    id. *)
Theorem GetDevicePath_sound {St} (w : World St) s do volumeId :
  let listing := fst (read_dir w device_dir s) in
  let r := run w (GetDevicePath do volumeId) s in
  calls r = [EvReadDir "/dev/disk/by-id/" listing] /\
  exists path,
    returned r = Done path /\
    ((exists err, listing = Err err) -> path = "") /\
    (path = "" \/
     exists files f rest,
       listing = Ok files /\ In f files /\
       Contains f "scsi-0DO_Volume_" = true /\
       slice f 16 (String.length f) = Some rest /\
       Contains volumeId rest = true /\
       path = path_Join ["/dev/disk/by-id/"; f]).
Proof.
  unfold GetDevicePath. cbn [run].
  destruct (read_dir w device_dir s) as [[files|err] s']; cbn [fst after calls].
  - destruct (GetDevicePath_scan_result volumeId files)
      as (path & -> & Hpath).
    split; [done|]. exists path. split; [done|].
    split; [by intros [err H]|].
    destruct Hpath as [->|(f & Hf & Hm & ->)]; [by left|right].
    unfold entry_matches in Hm. apply andb_true_iff in Hm as [Hmarker Hm].
    change (String.length device_marker) with 16%nat in Hm.
    destruct (slice f 16 (String.length f)) as [rest|] eqn:Hslice;
      [|discriminate].
    by exists files, f, rest.
  - split; [done|]. exists "". split; [done|]. split; [done|by left].
Qed.

Lemma split_slash_no_slash s : no_slash s = true -> split_slash s = [s].
Proof.
  induction s as [|c s IH]; [done|]. simpl.
  intros [Hc Hs]%andb_true_iff.
  destruct (Ascii.eqb c "/"); [done|]. by rewrite (IH Hs).
Qed.

Lemma path_Join_device_entry name :
  no_slash name = true ->
  path_Join [device_dir; device_marker +:+ name]
  = "/dev/disk/by-id/scsi-0DO_Volume_" +:+ name.
Proof.
  intros Hname. unfold path_Join, Clean, device_dir, device_marker.
  cbv [String.append strings_Join List.filter negb String.eqb Ascii.eqb
       Bool.eqb andb HasPrefix].
  cbn [split_slash Ascii.eqb Bool.eqb].
  rewrite (split_slash_no_slash name Hname). reflexivity.
Qed.

(** X18: The two ways to the device path agree.  Take a volume that
    [GetAttachmentVolumePath] finds attached and whose name has no slash,
    and a device directory where no entry before the one of the volume
    contains the marker: [GetDevicePath], asked for an id in which the
    name of the volume occurs, returns the path that
    [GetAttachmentVolumePath] returns. *)
Theorem device_paths_agree {St St'} (w : World St) s (w' : World St') s'
    do instanceID volumeID volumeId volume before behind path :
  fst (storage_get_volume w volumeID s) = Ok volume ->
  returned (run w (GetAttachmentVolumePath do instanceID volumeID) s)
    = Done (path, None) ->
  no_slash (Volume.Name volume) = true ->
  Contains volumeId (Volume.Name volume) = true ->
  fst (read_dir w' device_dir s')
    = Ok (before ++ ("scsi-0DO_Volume_" +:+ Volume.Name volume) :: behind) ->
  (forall g, In g before -> Contains g "scsi-0DO_Volume_" = false) ->
  returned (run w' (GetDevicePath do volumeId) s') = Done path.
Proof.
  intros Hvol Hpath Hname Hsub Hdir Hbefore.
  rewrite GetAttachmentVolumePath_returned, Hvol in Hpath.
  destruct (bool_decide (instanceID ∈ Volume.DropletIDs volume));
    [|discriminate].
  inversion Hpath; subst path.
  unfold GetDevicePath. cbn [run].
  destruct (read_dir w' device_dir s') as [ans s'']. simpl in Hdir. subst ans.
  cbn [after returned].
  rewrite GetDevicePath_scan_first.
  - simpl returned. f_equal. by apply path_Join_device_entry.
  - intros g Hg. unfold entry_matches.
    by rewrite (Hbefore g Hg : Contains g device_marker = false).
  - apply names_volume_entry_matches. exists (Volume.Name volume).
    split; [done|]. by apply Contains_spec.
Qed.

Lemma device_paths_agree_data :
  returned (run (by_id_world ["ata-QEMU_DVD-ROM_QM00001";
                              "scsi-0DO_Volume_data"])
                (GetDevicePath the_provider "data") tt)
    = Done "/dev/disk/by-id/scsi-0DO_Volume_data".
Proof.
  apply (device_paths_agree volumes_world tt
           (by_id_world ["ata-QEMU_DVD-ROM_QM00001"; "scsi-0DO_Volume_data"])
           tt the_provider 101 "vol-1" "data" attached_volume
           ["ata-QEMU_DVD-ROM_QM00001"] []);
    try reflexivity.
  intros g [<-|[]]. reflexivity.
Defined.

(** ** Addresses as lookup keys *)

Lemma findDroplet_scan_some {U : Unicode} name droplets d :
  In d droplets -> identifies name d = true ->
  exists d', findDroplet_scan name droplets = Ok d'.
Proof.
  intros Hin Hd.
  destruct (findDroplet_scan name droplets) as [d'|e] eqn:Hscan;
    [by exists d'|].
  apply findDroplet_scan_error in Hscan as [_ Hnone].
  by rewrite (Hnone d Hin) in Hd.
Qed.

(** X11: Every address that [NodeAddresses] returns for a node is a key under
    which a lookup over the same listing finds a droplet. *)
Theorem NodeAddresses_resolve {U : Unicode}
    {St} (w : World St) s s' do name droplets addresses :
  fst (droplets_list w listOptions s) = Ok droplets ->
  fst (droplets_list w listOptions s') = Ok droplets ->
  returned (run w (NodeAddresses do name) s) = Done (addresses, None) ->
  forall a, In a addresses ->
    exists d,
      returned (run w (findDroplet do (api.Address a)) s') = Done (Ok d).
Proof.
  intros Hs Hs'. unfold NodeAddresses.
  rewrite run_bind, !findDroplet_run.
  destruct (droplets_list w listOptions s) as [ans s1]. simpl in Hs.
  subst ans. simpl.
  destruct (findDroplet_scan name droplets) as [d|e] eqn:Hscan;
    simpl; [|discriminate].
  destruct (Droplet.PrivateIPv4 d) as [internalIP [e1|]] eqn:Hpriv;
    simpl; [discriminate|].
  destruct (Droplet.PublicIPv4 d) as [externalIP [e2|]] eqn:Hpub;
    simpl; [discriminate|].
  intros H a Ha. inversion H; subst addresses. clear H.
  apply findDroplet_scan_sound in Hscan as (before & behind & -> & _ & _).
  assert (Hin : In d (before ++ d :: behind))
    by (apply in_or_app; right; by left).
  assert (Hkey : identifies (api.Address a) d = true).
  { unfold identifies, address_matches. rewrite Hpriv, Hpub. simpl.
    destruct Ha as [<-|[<-|[<-|[]]]]; simpl;
      rewrite String.eqb_refl; by rewrite ?orb_true_r. }
  destruct (findDroplet_scan_some _ _ _ Hin Hkey) as [d' Hd'].
  exists d'.
  destruct (droplets_list w listOptions s') as [ans s1']. simpl in Hs'.
  subst ans. simpl. by rewrite Hd'.
Qed.

Lemma NodeAddresses_resolve_web1 :
  exists d,
    returned (run web1_world (findDroplet (U := ascii_text) the_provider
        "203.0.113.7") tt)
      = Done (Ok d).
Proof.
  apply (NodeAddresses_resolve (U := ascii_text) web1_world tt tt the_provider
      "web-1" [web1]
           [ {| api.Type' := api.NodeInternalIP; api.Address := "10.0.0.5" |};
             {| api.Type' := api.NodeLegacyHostIP;
                api.Address := "10.0.0.5" |};
             {| api.Type' := api.NodeExternalIP;
                api.Address := "203.0.113.7" |} ]
           eq_refl eq_refl eq_refl
           {| api.Type' := api.NodeExternalIP;
              api.Address := "203.0.113.7" |}).
  simpl. tauto.
Defined.

Lemma GetDevicePath_sound_unreadable :
  returned (run (fixed_world (Ok []) no_volume
                             (Err (ExternalError "permission denied"))
                             no_metadata)
                (GetDevicePath the_provider "vol-1") tt) = Done "".
Proof.
  destruct (GetDevicePath_sound
              (fixed_world (Ok []) no_volume
                           (Err (ExternalError "permission denied"))
                           no_metadata)
              tt the_provider "vol-1") as (_ & path & Hret & Herr & _).
  rewrite Hret. f_equal. apply Herr. by eexists.
Defined.
